(** * The AXML encoder of manual_apk_builder.py

    A shallow embedding of the binary-manifest encoder
    ([encode_length], [build_string_pool], [build_resource_map],
    [namespace_chunk], [start_element_chunk], [end_element_chunk],
    [build_manifest]) and the properties of the chunk format it emits.

    Python integers are [Z]; [bytes] and [bytearray] values are lists of
    [Byte.byte]; a [str] is the list of its code points; a [dict] is a
    [gmap]; a raised exception is the [Raise] branch of [result]. *)

From Stdlib Require Import ZArith NArith List Lia Bool.
From Stdlib Require Import Strings.Byte Strings.String Strings.Ascii.
From stdpp Require Import base option list gmap.

Local Open Scope Z_scope.

(** ** Exceptions and the error monad *)

Abbreviation bytes := (list Byte.byte).

(** A Python [str]: the sequence of its code points. *)
Abbreviation str := (list N).

Inductive exn : Type :=
| ValueError (msg : string)
| UnicodeEncodeError
| StructError
| KeyError (key : str).

Inductive result (A : Type) : Type :=
| Ok (a : A)
| Raise (e : exn).
Arguments Ok {A} a.
Arguments Raise {A} e.

(** [isinstance(e, ValueError)]: UnicodeEncodeError derives from
    UnicodeError, which derives from ValueError; struct.error and
    KeyError do not. *)
Definition is_ValueError (e : exn) : bool :=
  match e with
  | ValueError _ | UnicodeEncodeError => true
  | StructError | KeyError _ => false
  end.

Definition bind {A B} (m : result A) (k : A -> result B) : result B :=
  match m with
  | Ok a => k a
  | Raise e => Raise e
  end.

Notation "'let*' x ':=' m 'in' k" := (bind m (fun x => k))
  (at level 10, x pattern, m at level 100, k at level 200).

(** [len(x)] as a Python integer. *)
Definition len {A} (l : list A) : Z := Z.of_nat (length l).

(** ** Bytes *)

Definition Z_of_byte (b : Byte.byte) : Z := Z.of_N (Byte.to_N b).

(** The byte whose value is [z mod 256]. *)
Definition byte_of_Z (z : Z) : Byte.byte :=
  match Byte.of_N (Z.to_N (z mod 256)) with
  | Some b => b
  | None => Byte.x00
  end.

Definition byte_of_N (n : N) : Byte.byte := byte_of_Z (Z.of_N n).

Definition range_msg : string :=
  "value out of range for 1- or 2-byte encoding"%string.

Definition bytes_msg : string := "bytes must be in range(0, 256)"%string.

(** [bytes([v0, v1, ...])]: every value must lie in [range(256)]. *)
Fixpoint bytes_of (vs : list Z) : result bytes :=
  match vs with
  | [] => Ok []
  | v :: vs' =>
      if (0 <=? v) && (v <? 256)
      then let* r := bytes_of vs' in Ok (byte_of_Z v :: r)
      else Raise (ValueError bytes_msg)
  end.

(** ** struct.pack with a little-endian format ("<...") *)

Inductive fmt : Type := fmt_B | fmt_H | fmt_I.

Definition fmt_size (f : fmt) : nat :=
  match f with
  | fmt_B => 1
  | fmt_H => 2
  | fmt_I => 4
  end%nat.

(** The [n] low bytes of [v], least significant first. *)
Fixpoint le_bytes (n : nat) (v : Z) : bytes :=
  match n with
  | O => []
  | S n' => byte_of_Z v :: le_bytes n' (v / 256)
  end.

(** One field: struct.error when the value does not fit. *)
Definition pack1 (f : fmt) (v : Z) : result bytes :=
  if (0 <=? v) && (v <? 2 ^ (8 * Z.of_nat (fmt_size f)))
  then Ok (le_bytes (fmt_size f) v)
  else Raise StructError.

Fixpoint pack (fs : list fmt) (vs : list Z) : result bytes :=
  match fs, vs with
  | [], [] => Ok []
  | f :: fs', v :: vs' =>
      let* b := pack1 f v in
      let* r := pack fs' vs' in
      Ok (b ++ r)
  | _, _ => Raise StructError
  end.

(** ** str.encode("utf-8") *)

(** A lone surrogate cannot be encoded; code points above 0x10FFFF do
    not occur in a [str] and are rejected as well. *)
Definition utf8_char (c : N) : result bytes :=
  (if c <? 0x80 then Ok [byte_of_N c]
   else if c <? 0x800 then
     Ok [byte_of_N (N.lor 0xC0 (N.shiftr c 6));
         byte_of_N (N.lor 0x80 (N.land c 0x3F))]
   else if c <? 0x10000 then
     if (0xD800 <=? c) && (c <=? 0xDFFF) then Raise UnicodeEncodeError
     else
       Ok [byte_of_N (N.lor 0xE0 (N.shiftr c 12));
           byte_of_N (N.lor 0x80 (N.land (N.shiftr c 6) 0x3F));
           byte_of_N (N.lor 0x80 (N.land c 0x3F))]
   else if c <=? 0x10FFFF then
     Ok [byte_of_N (N.lor 0xF0 (N.shiftr c 18));
         byte_of_N (N.lor 0x80 (N.land (N.shiftr c 12) 0x3F));
         byte_of_N (N.lor 0x80 (N.land (N.shiftr c 6) 0x3F));
         byte_of_N (N.lor 0x80 (N.land c 0x3F))]
   else Raise UnicodeEncodeError)%N.

Fixpoint encode_utf8 (text : str) : result bytes :=
  match text with
  | [] => Ok []
  | c :: text' =>
      let* b := utf8_char c in
      let* r := encode_utf8 text' in
      Ok (b ++ r)
  end.

(** A string literal of the source (ASCII only). *)
Definition py (s : string) : str :=
  map N_of_ascii (list_ascii_of_string s).

(** ** Constants *)

Definition RES_XML_TYPE : Z := 0x0003.
Definition RES_STRING_POOL_TYPE : Z := 0x0001.
Definition RES_XML_RESOURCE_MAP_TYPE : Z := 0x0180.
Definition RES_XML_START_NAMESPACE_TYPE : Z := 0x0100.
Definition RES_XML_END_NAMESPACE_TYPE : Z := 0x0101.
Definition RES_XML_START_ELEMENT_TYPE : Z := 0x0102.
Definition RES_XML_END_ELEMENT_TYPE : Z := 0x0103.
Definition DATA_TYPE_STRING : Z := 0x03.
Definition ANDROID_NAME_RESOURCE_ID : Z := 0x01010003.

(** ** encode_length *)

Definition encode_length (value : Z) : result bytes :=
  if (value <? 0) || (value >? 0x3FFF)
  then Raise (ValueError range_msg)
  else if value <=? 0x7F
  then bytes_of [value]
  else bytes_of [Z.lor (Z.land value 0x7F) 0x80; Z.shiftr value 7].

(** ** build_string_pool *)

(** The [for text in strings] loop over the state [(offsets, body)]. *)
Fixpoint pool_loop (strings : list str) (offsets : list Z) (body : bytes)
  : result (list Z * bytes) :=
  match strings with
  | [] => Ok (offsets, body)
  | text :: rest =>
      let* encoded := encode_utf8 text in
      let offsets := offsets ++ [len body] in
      let* l1 := encode_length (len text) in
      let body := body ++ l1 in
      let* l2 := encode_length (len encoded) in
      let body := body ++ l2 in
      let body := body ++ (encoded ++ [Byte.x00]) in
      pool_loop rest offsets body
  end.

(** [while len(body) % 4: body += b"\x00"], at most [fuel] rounds. *)
Fixpoint pad_loop (fuel : nat) (body : bytes) : bytes :=
  match fuel with
  | O => body
  | S fuel' =>
      if len body mod 4 =? 0 then body
      else pad_loop fuel' (body ++ [Byte.x00])
  end.

(** Three rounds always reach a multiple of four ([pad_body_aligned]). *)
Definition pad_body (body : bytes) : bytes := pad_loop 3 body.

(** [for offset in offsets: chunk += struct.pack("<I", offset)]. *)
Fixpoint offsets_loop (offsets : list Z) (chunk : bytes) : result bytes :=
  match offsets with
  | [] => Ok chunk
  | offset :: rest =>
      let* b := pack [fmt_I] [offset] in
      offsets_loop rest (chunk ++ b)
  end.

Fixpoint enumerate_from {A} (i : Z) (l : list A) : list (Z * A) :=
  match l with
  | [] => []
  | x :: l' => (i, x) :: enumerate_from (i + 1) l'
  end.

Definition enumerate {A} (l : list A) : list (Z * A) := enumerate_from 0 l.

(** [{text: index for index, text in pairs}]: a later pair replaces an
    earlier one with the same key. *)
Definition dict_of (pairs : list (Z * str)) : gmap str Z :=
  foldl (fun m p => <[p.2 := p.1]> m) ∅ pairs.

Definition build_string_pool (strings : list str)
  : result (bytes * gmap str Z) :=
  let header_size := 28 in
  let flags_utf8 := 0x00000100 in
  let* (offsets, body) := pool_loop strings [] [] in
  let body := pad_body body in
  let strings_start := header_size + len strings * 4 in
  let chunk_size := strings_start + len body in
  let* header :=
    pack [fmt_H; fmt_H; fmt_I] [RES_STRING_POOL_TYPE; header_size; chunk_size] in
  let chunk := header in
  let* fields :=
    pack [fmt_I; fmt_I; fmt_I; fmt_I; fmt_I]
         [len strings; 0; flags_utf8; strings_start; 0] in
  let chunk := chunk ++ fields in
  let* chunk := offsets_loop offsets chunk in
  let chunk := chunk ++ body in
  let mapping := dict_of (enumerate strings) in
  Ok (chunk, mapping).

(** ** build_resource_map *)

Fixpoint res_ids_loop (resource_ids : list Z) (chunk : bytes) : result bytes :=
  match resource_ids with
  | [] => Ok chunk
  | res_id :: rest =>
      let* b := pack [fmt_I] [res_id] in
      res_ids_loop rest (chunk ++ b)
  end.

Definition build_resource_map (resource_ids : list Z) : result bytes :=
  let header_size := 8 in
  let chunk_size := header_size + 4 * len resource_ids in
  let* chunk :=
    pack [fmt_H; fmt_H; fmt_I]
         [RES_XML_RESOURCE_MAP_TYPE; header_size; chunk_size] in
  res_ids_loop resource_ids chunk.

(** ** namespace_chunk *)

Definition namespace_chunk (chunk_type prefix_index uri_index : Z)
  : result bytes :=
  let header_size := 0x18 in
  let chunk_size := header_size in
  let* a := pack [fmt_H; fmt_H; fmt_I] [chunk_type; header_size; chunk_size] in
  let* b := pack [fmt_I; fmt_I] [0; 0] in
  let* c := pack [fmt_I; fmt_I] [prefix_index; uri_index] in
  Ok ((a ++ b) ++ c).

(** ** start_element_chunk and end_element_chunk *)

(** [x if x is not None else 0xFFFFFFFF]. *)
Definition index_or_sentinel (x : option Z) : Z :=
  match x with
  | Some i => i
  | None => 0xFFFFFFFF
  end.

(** An attribute tuple
    [(attr_ns, attr_name, raw_index, (data_type, data_value))]. *)
Abbreviation attribute := (option Z * Z * option Z * (Z * Z))%type.

Fixpoint attributes_loop (attributes : list attribute) (chunk : bytes)
  : result bytes :=
  match attributes with
  | [] => Ok chunk
  | (attr_ns, attr_name, raw_index, (data_type, data_value)) :: rest =>
      let* b1 := pack [fmt_I] [index_or_sentinel attr_ns] in
      let chunk := chunk ++ b1 in
      let* b2 := pack [fmt_I] [attr_name] in
      let chunk := chunk ++ b2 in
      let* b3 := pack [fmt_I] [index_or_sentinel raw_index] in
      let chunk := chunk ++ b3 in
      let* b4 := pack [fmt_H; fmt_B; fmt_B; fmt_I] [8; 0; data_type; data_value] in
      let chunk := chunk ++ b4 in
      attributes_loop rest chunk
  end.

Definition start_element_chunk (ns_index : option Z) (name_index : Z)
    (attributes : list attribute) : result bytes :=
  let header_size := 0x24 in
  let attribute_size := 0x14 in
  let chunk_size := header_size + attribute_size * len attributes in
  let chunk := [] in
  let* b := pack [fmt_H; fmt_H; fmt_I]
                 [RES_XML_START_ELEMENT_TYPE; header_size; chunk_size] in
  let chunk := chunk ++ b in
  let* b := pack [fmt_I; fmt_I] [0; 0] in
  let chunk := chunk ++ b in
  let* b := pack [fmt_I; fmt_I] [index_or_sentinel ns_index; name_index] in
  let chunk := chunk ++ b in
  let* b := pack [fmt_H; fmt_H; fmt_H; fmt_H; fmt_H; fmt_H]
                 [0x14; 0x14; len attributes; 0; 0; 0] in
  let chunk := chunk ++ b in
  attributes_loop attributes chunk.

Definition end_element_chunk (ns_index : option Z) (name_index : Z)
  : result bytes :=
  let header_size := 0x18 in
  let chunk_size := header_size in
  let* a := pack [fmt_H; fmt_H; fmt_I]
                 [RES_XML_END_ELEMENT_TYPE; header_size; chunk_size] in
  let* b := pack [fmt_I; fmt_I] [0; 0] in
  let* c := pack [fmt_I; fmt_I] [index_or_sentinel ns_index; name_index] in
  Ok ((a ++ b) ++ c).

(** ** build_manifest *)

(** [indexes[key]]: KeyError when the key is absent. *)
Definition getitem (indexes : gmap str Z) (key : str) : result Z :=
  match indexes !! key with
  | Some i => Ok i
  | None => Raise (KeyError key)
  end.

Definition manifest_strings : list str :=
  [ py "manifest";
    py "http://schemas.android.com/apk/res/android";
    py "android";
    py "package";
    py "application";
    py "activity";
    py "intent-filter";
    py "action";
    py "category";
    py "name";
    py "com.tencent.mm";
    py "com.tencent.mm.ui.MainTabUI";
    py "android.intent.action.MAIN";
    py "android.intent.category.LAUNCHER" ].

(** The list [manifest] of chunks, as it stands just before
    [b"".join(manifest)]. *)
Definition manifest_chunks : result (list bytes) :=
  let strings := manifest_strings in
  let* (string_pool, indexes) := build_string_pool strings in
  let* res_map := build_resource_map [ANDROID_NAME_RESOURCE_ID] in
  let* ns_uri := getitem indexes (py "http://schemas.android.com/apk/res/android") in
  let* ns_prefix := getitem indexes (py "android") in
  let manifest := [string_pool; res_map] in
  let* c := namespace_chunk RES_XML_START_NAMESPACE_TYPE ns_prefix ns_uri in
  let manifest := manifest ++ [c] in
  let* i_manifest := getitem indexes (py "manifest") in
  let* i_package := getitem indexes (py "package") in
  let* i_raw := getitem indexes (py "com.tencent.mm") in
  let* i_val := getitem indexes (py "com.tencent.mm") in
  let* c := start_element_chunk None i_manifest
              [(None, i_package, Some i_raw, (DATA_TYPE_STRING, i_val))] in
  let manifest := manifest ++ [c] in
  let* i_application := getitem indexes (py "application") in
  let* c := start_element_chunk None i_application [] in
  let manifest := manifest ++ [c] in
  let* i_activity := getitem indexes (py "activity") in
  let* i_name := getitem indexes (py "name") in
  let* i_raw := getitem indexes (py "com.tencent.mm.ui.MainTabUI") in
  let* i_val := getitem indexes (py "com.tencent.mm.ui.MainTabUI") in
  let* c := start_element_chunk (Some ns_uri) i_activity
              [(Some ns_uri, i_name, Some i_raw, (DATA_TYPE_STRING, i_val))] in
  let manifest := manifest ++ [c] in
  let* i_intent_filter := getitem indexes (py "intent-filter") in
  let* c := start_element_chunk None i_intent_filter [] in
  let manifest := manifest ++ [c] in
  let* i_action := getitem indexes (py "action") in
  let* i_name := getitem indexes (py "name") in
  let* i_raw := getitem indexes (py "android.intent.action.MAIN") in
  let* i_val := getitem indexes (py "android.intent.action.MAIN") in
  let* c := start_element_chunk (Some ns_uri) i_action
              [(Some ns_uri, i_name, Some i_raw, (DATA_TYPE_STRING, i_val))] in
  let manifest := manifest ++ [c] in
  let* i_action := getitem indexes (py "action") in
  let* c := end_element_chunk (Some ns_uri) i_action in
  let manifest := manifest ++ [c] in
  let* i_category := getitem indexes (py "category") in
  let* i_name := getitem indexes (py "name") in
  let* i_raw := getitem indexes (py "android.intent.category.LAUNCHER") in
  let* i_val := getitem indexes (py "android.intent.category.LAUNCHER") in
  let* c := start_element_chunk (Some ns_uri) i_category
              [(Some ns_uri, i_name, Some i_raw, (DATA_TYPE_STRING, i_val))] in
  let manifest := manifest ++ [c] in
  let* i_category := getitem indexes (py "category") in
  let* c := end_element_chunk (Some ns_uri) i_category in
  let manifest := manifest ++ [c] in
  let* i_intent_filter := getitem indexes (py "intent-filter") in
  let* c := end_element_chunk None i_intent_filter in
  let manifest := manifest ++ [c] in
  let* i_activity := getitem indexes (py "activity") in
  let* c := end_element_chunk (Some ns_uri) i_activity in
  let manifest := manifest ++ [c] in
  let* i_application := getitem indexes (py "application") in
  let* c := end_element_chunk None i_application in
  let manifest := manifest ++ [c] in
  let* i_manifest := getitem indexes (py "manifest") in
  let* c := end_element_chunk None i_manifest in
  let manifest := manifest ++ [c] in
  let* c := namespace_chunk RES_XML_END_NAMESPACE_TYPE ns_prefix ns_uri in
  let manifest := manifest ++ [c] in
  Ok manifest.

Definition build_manifest : result bytes :=
  let* manifest := manifest_chunks in
  let payload := concat manifest in
  let* header := pack [fmt_H; fmt_H; fmt_I] [RES_XML_TYPE; 8; len payload + 8] in
  Ok (header ++ payload).

(** ** Reading a buffer back

    The readers below are the inverse view of [pack]: they follow the
    little-endian field formats, and are what the statements about the
    emitted bytes are phrased with. *)

Fixpoint le_to_Z (bs : bytes) : Z :=
  match bs with
  | [] => 0
  | b :: bs' => Z_of_byte b + 256 * le_to_Z bs'
  end.

(** struct.unpack_from: the fields of a format, and the unread rest. *)
Fixpoint unpack (fs : list fmt) (buf : bytes) : option (list Z * bytes) :=
  match fs with
  | [] => Some ([], buf)
  | f :: fs' =>
      if (length buf <? fmt_size f)%nat then None
      else
        match unpack fs' (drop (fmt_size f) buf) with
        | Some (vs, rest) => Some (le_to_Z (take (fmt_size f) buf) :: vs, rest)
        | None => None
        end
  end.

(** The common chunk header [(type, headerSize, totalSize)]. *)
Definition chunk_header (c : bytes) : option (Z * Z * Z) :=
  match unpack [fmt_H; fmt_H; fmt_I] c with
  | Some ([ty; hs; ts], _) => Some (ty, hs, ts)
  | _ => None
  end.

Definition chunk_type (c : bytes) : Z :=
  match chunk_header c with Some (ty, _, _) => ty | None => -1 end.

Definition chunk_headerSize (c : bytes) : Z :=
  match chunk_header c with Some (_, hs, _) => hs | None => -1 end.

Definition chunk_totalSize (c : bytes) : Z :=
  match chunk_header c with Some (_, _, ts) => ts | None => -1 end.

(** What follows the header of a chunk. *)
Definition chunk_payload (c : bytes) : bytes :=
  drop (Z.to_nat (chunk_headerSize c)) c.

(** Splitting a buffer into sibling chunks by their self-reported
    sizes; [None] when a header is truncated or a size overshoots. *)
Fixpoint walk_chunks (fuel : nat) (buf : bytes) : option (list bytes) :=
  match fuel with
  | O => match buf with [] => Some [] | _ => None end
  | S fuel' =>
      match buf with
      | [] => Some []
      | _ =>
          match chunk_header buf with
          | Some (_, _, ts) =>
              if (8 <=? ts) && (ts <=? len buf) then
                match walk_chunks fuel' (drop (Z.to_nat ts) buf) with
                | Some cs => Some (take (Z.to_nat ts) buf :: cs)
                | None => None
                end
              else None
          | None => None
          end
      end
  end.

(** The offset at which each chunk of a sequence starts. *)
Fixpoint chunk_offsets (start : Z) (cs : list bytes) : list Z :=
  match cs with
  | [] => []
  | c :: cs' => start :: chunk_offsets (start + len c) cs'
  end.

(** The number of bytes a format occupies (struct.calcsize). *)
Definition calcsize (fs : list fmt) : nat := sum_list (map fmt_size fs).

(** The reader for the 1-or-2-byte length scheme of [encode_length]:
    the first byte carries the low seven bits and, in bit 0x80, the
    flag that a second byte with the remaining bits follows.  The
    repository has no decoder; this one is the inverse of the scheme
    its encoder writes. *)
Definition decode_length (buf : bytes) : option (Z * bytes) :=
  match buf with
  | [] => None
  | b0 :: rest =>
      let v0 := Z_of_byte b0 in
      if Z.land v0 0x80 =? 0 then Some (v0, rest)
      else
        match rest with
        | [] => None
        | b1 :: rest' =>
            Some (Z.lor (Z.land v0 0x7F) (Z.shiftl (Z_of_byte b1) 7), rest')
        end
  end.

(** ** The string pool, as the format describes it *)

(** The table of 32-bit words that a loop of [struct.pack("<I", x)]
    appends. *)
Definition words (vs : list Z) : bytes := concat (map (le_bytes 4) vs).

(** One pooled string: its character length and its byte length (both
    through [encode_length]), its UTF-8 bytes, one 0x00 terminator. *)
Definition pool_entry (text : str) : result bytes :=
  let* encoded := encode_utf8 text in
  let* l1 := encode_length (len text) in
  let* l2 := encode_length (len encoded) in
  Ok (l1 ++ l2 ++ encoded ++ [Byte.x00]).

Fixpoint pool_entries (strings : list str) : result (list bytes) :=
  match strings with
  | [] => Ok []
  | text :: rest =>
      let* e := pool_entry text in
      let* es := pool_entries rest in
      Ok (e :: es)
  end.

(** A Unicode scalar value: a code point that is not a surrogate. *)
Definition scalar_value (c : N) : bool :=
  ((c <? 0xD800) || ((0xDFFF <? c) && (c <=? 0x10FFFF)))%N.

(** A string that has a UTF-8 encoding. *)
Definition well_formed (text : str) : bool := forallb scalar_value text.

(** A string within the range of the length codec: it can be encoded,
    and both of its lengths fit in 14 bits. *)
Definition in_codec_range (text : str) : bool :=
  match encode_utf8 text with
  | Ok encoded => (len text <=? 0x3FFF) && (len encoded <=? 0x3FFF)
  | Raise _ => false
  end.

(** A string one of whose lengths exceeds 0x3FFF. *)
Definition overlong (text : str) : bool :=
  (0x3FFF <? len text)
  || match encode_utf8 text with
     | Ok encoded => 0x3FFF <? len encoded
     | Raise _ => false
     end.

(** The size that [build_string_pool] declares for its chunk. *)
Definition pool_size (strings : list str) : Z :=
  match pool_entries strings with
  | Ok entries => 28 + len strings * 4 + len (pad_body (concat entries))
  | Raise _ => 0
  end.

(** The fields of a string-pool chunk, read back: the five words after
    the common header (string count, style count, flags, stringsStart,
    stylesStart), the offset table and the body that starts at
    [stringsStart]. *)
Definition pool_fields (chunk : bytes) : option (list Z) :=
  match unpack [fmt_I; fmt_I; fmt_I; fmt_I; fmt_I] (drop 8 chunk) with
  | Some (vs, _) => Some vs
  | None => None
  end.

Definition pool_string_count (chunk : bytes) : option Z :=
  match pool_fields chunk with
  | Some [n; _; _; _; _] => Some n
  | _ => None
  end.

Definition pool_strings_start (chunk : bytes) : option Z :=
  match pool_fields chunk with
  | Some [_; _; _; s; _] => Some s
  | _ => None
  end.

Definition pool_offset_table (chunk : bytes) : option (list Z) :=
  match pool_string_count chunk with
  | Some n =>
      match unpack (repeat fmt_I (Z.to_nat n)) (drop 28 chunk) with
      | Some (offs, _) => Some offs
      | None => None
      end
  | None => None
  end.

Definition pool_body (chunk : bytes) : option bytes :=
  match pool_strings_start chunk with
  | Some s => Some (drop (Z.to_nat s) chunk)
  | None => None
  end.

(** Deduplication keeping first occurrences, and the positions of the
    first and of the last occurrence of a string in a list. *)
Fixpoint dedup_first (seen : list str) (l : list str) : list str :=
  match l with
  | [] => []
  | x :: l' =>
      if bool_decide (x ∈ seen) then dedup_first seen l'
      else x :: dedup_first (x :: seen) l'
  end.

Fixpoint first_index_from (i : Z) (text : str) (l : list str) : option Z :=
  match l with
  | [] => None
  | x :: l' =>
      if bool_decide (x = text) then Some i
      else first_index_from (i + 1) text l'
  end.

Fixpoint last_index_from (i : Z) (text : str) (l : list str) : option Z :=
  match l with
  | [] => None
  | x :: l' =>
      match last_index_from (i + 1) text l' with
      | Some j => Some j
      | None => if bool_decide (x = text) then Some i else None
      end
  end.

(** The deduplicating behaviour: one pool entry per distinct string,
    each string mapped to the position of its first occurrence. *)
Definition deduplicates (strings : list str) : Prop :=
  forall chunk mapping,
    build_string_pool strings = Ok (chunk, mapping) ->
    pool_string_count chunk = Some (len (dedup_first [] strings))
    /\ forall text, text ∈ strings ->
         mapping !! text = first_index_from 0 text strings.

(** ** Element and namespace chunks, read back *)

(** One attribute record of a start-element chunk, in field order. *)
Record attr_record : Type := AttrRecord {
  attr_ns : Z;
  attr_name : Z;
  attr_raw : Z;
  attr_size : Z;
  attr_res0 : Z;
  attr_dataType : Z;
  attr_data : Z
}.

Definition parse_attr (buf : bytes) : option (attr_record * bytes) :=
  match unpack [fmt_I; fmt_I; fmt_I; fmt_H; fmt_B; fmt_B; fmt_I] buf with
  | Some ([ns; name; raw; size; res0; ty; data], rest) =>
      Some (AttrRecord ns name raw size res0 ty data, rest)
  | _ => None
  end.

Fixpoint parse_attrs (n : nat) (buf : bytes)
  : option (list attr_record * bytes) :=
  match n with
  | O => Some ([], buf)
  | S n' =>
      match parse_attr buf with
      | Some (a, rest) =>
          match parse_attrs n' rest with
          | Some (l, rest') => Some (a :: l, rest')
          | None => None
          end
      | None => None
      end
  end.

(** A start-element chunk: the 36 bytes of its header, then the
    attribute records, then nothing. *)
Record start_element : Type := StartElement {
  se_type : Z;
  se_headerSize : Z;
  se_totalSize : Z;
  se_lineNumber : Z;
  se_comment : Z;
  se_ns : Z;
  se_name : Z;
  se_attributeStart : Z;
  se_attributeSize : Z;
  se_attributeCount : Z;
  se_idIndex : Z;
  se_classIndex : Z;
  se_styleIndex : Z;
  se_attributes : list attr_record
}.

Definition parse_start_element (c : bytes) : option start_element :=
  match unpack [fmt_H; fmt_H; fmt_I; fmt_I; fmt_I; fmt_I; fmt_I;
                fmt_H; fmt_H; fmt_H; fmt_H; fmt_H; fmt_H] c with
  | Some ([ty; hs; ts; line; comment; ns; name; astart; asize; acount;
           idi; cls; sty], rest) =>
      match parse_attrs (Z.to_nat acount) rest with
      | Some (attrs, []) =>
          Some (StartElement ty hs ts line comment ns name astart asize
                             acount idi cls sty attrs)
      | _ => None
      end
  | _ => None
  end.

(** The 24 bytes shared by end-element and namespace chunks: the common
    header, line number, comment, and two string-pool references. *)
Record node_chunk : Type := NodeChunk {
  nc_type : Z;
  nc_headerSize : Z;
  nc_totalSize : Z;
  nc_lineNumber : Z;
  nc_comment : Z;
  nc_first : Z;
  nc_second : Z
}.

Definition parse_node_chunk (c : bytes) : option node_chunk :=
  match unpack [fmt_H; fmt_H; fmt_I; fmt_I; fmt_I; fmt_I; fmt_I] c with
  | Some ([ty; hs; ts; line; comment; a; b], []) =>
      Some (NodeChunk ty hs ts line comment a b)
  | _ => None
  end.

(** The record that an attribute tuple is written as. *)
Definition record_of (a : attribute) : attr_record :=
  match a with
  | (attr_ns, attr_name, raw_index, (data_type, data_value)) =>
      AttrRecord (index_or_sentinel attr_ns) attr_name
                 (index_or_sentinel raw_index) 8 0 data_type data_value
  end.

Definition u32 (v : Z) : Prop := 0 <= v < 2 ^ 32.

(** An attribute tuple whose fields fit the widths of their formats. *)
Definition attr_fits (a : attribute) : Prop :=
  match a with
  | (attr_ns, attr_name, raw_index, (data_type, data_value)) =>
      u32 (index_or_sentinel attr_ns) /\ u32 attr_name
      /\ u32 (index_or_sentinel raw_index)
      /\ 0 <= data_type < 256 /\ u32 data_value
  end.

(** The resource ids of a resource-map chunk. *)
Definition parse_resource_map (c : bytes) : option (list Z) :=
  match chunk_header c with
  | Some (_, hs, ts) =>
      match unpack (repeat fmt_I (Z.to_nat ((ts - hs) / 4))) (drop 8 c) with
      | Some (ids, []) => Some ids
      | _ => None
      end
  | None => None
  end.

(** ** The document, read back *)

(** The chunks nested in the outer chunk of a document. *)
Definition document_chunks (doc : bytes) : option (list bytes) :=
  walk_chunks (length doc) (drop 8 doc).

Inductive node : Type :=
| StringPool (count : Z)
| ResourceMap (ids : list Z)
| NamespaceStart (prefix uri : Z)
| NamespaceEnd (prefix uri : Z)
| ElementStart (ns name : Z) (attrs : list attr_record)
| ElementEnd (ns name : Z).

Definition parse_node (c : bytes) : option node :=
  let ty := chunk_type c in
  if ty =? RES_STRING_POOL_TYPE then
    option_map StringPool (pool_string_count c)
  else if ty =? RES_XML_RESOURCE_MAP_TYPE then
    option_map ResourceMap (parse_resource_map c)
  else if ty =? RES_XML_START_NAMESPACE_TYPE then
    option_map (fun n => NamespaceStart (nc_first n) (nc_second n))
               (parse_node_chunk c)
  else if ty =? RES_XML_END_NAMESPACE_TYPE then
    option_map (fun n => NamespaceEnd (nc_first n) (nc_second n))
               (parse_node_chunk c)
  else if ty =? RES_XML_START_ELEMENT_TYPE then
    option_map (fun e => ElementStart (se_ns e) (se_name e) (se_attributes e))
               (parse_start_element c)
  else if ty =? RES_XML_END_ELEMENT_TYPE then
    option_map (fun n => ElementEnd (nc_first n) (nc_second n))
               (parse_node_chunk c)
  else None.

Fixpoint parse_nodes (cs : list bytes) : option (list node) :=
  match cs with
  | [] => Some []
  | c :: cs' =>
      match parse_node c, parse_nodes cs' with
      | Some n, Some ns => Some (n :: ns)
      | _, _ => None
      end
  end.

(** What is open at a point of the document. *)
Inductive frame : Type :=
| NamespaceFrame (prefix uri : Z)
| ElementFrame (ns name : Z).

Definition frame_eqb (a b : frame) : bool :=
  match a, b with
  | NamespaceFrame p u, NamespaceFrame p' u' => (p =? p') && (u =? u')
  | ElementFrame s n, ElementFrame s' n' => (s =? s') && (n =? n')
  | _, _ => false
  end.

(** Every end closes the innermost open start, with the same indices,
    and nothing stays open. *)
Fixpoint balanced (stack : list frame) (nodes : list node) : bool :=
  match nodes with
  | [] => match stack with [] => true | _ => false end
  | NamespaceStart p u :: rest => balanced (NamespaceFrame p u :: stack) rest
  | ElementStart s n _ :: rest => balanced (ElementFrame s n :: stack) rest
  | NamespaceEnd p u :: rest =>
      match stack with
      | top :: stack' =>
          frame_eqb top (NamespaceFrame p u) && balanced stack' rest
      | [] => false
      end
  | ElementEnd s n :: rest =>
      match stack with
      | top :: stack' =>
          frame_eqb top (ElementFrame s n) && balanced stack' rest
      | [] => false
      end
  | _ :: rest => balanced stack rest
  end.

(** The number of end-element chunks carrying the given indices. *)
Fixpoint count_ends (ns name : Z) (nodes : list node) : nat :=
  match nodes with
  | [] => 0
  | ElementEnd s n :: rest =>
      if (s =? ns) && (n =? name) then S (count_ends ns name rest)
      else count_ends ns name rest
  | _ :: rest => count_ends ns name rest
  end.

Fixpoint starts_closed_once (nodes : list node) : bool :=
  match nodes with
  | [] => true
  | ElementStart s n _ :: rest =>
      Nat.eqb (count_ends s n rest) 1 && starts_closed_once rest
  | _ :: rest => starts_closed_once rest
  end.

(** A reference into the string pool: [None] is the sentinel. *)
Definition resolve (strings : list str) (index : Z) : option (option str) :=
  if index =? 0xFFFFFFFF then Some None
  else if index <? 0 then None
  else option_map Some (strings !! Z.to_nat index).

(** A node with its references resolved to strings; an attribute shows
    its namespace, its name and its string value. *)
Inductive named_node : Type :=
| Pool (count : Z)
| Resources (ids : list Z)
| OpenNamespace (prefix uri : option str)
| CloseNamespace (prefix uri : option str)
| Open (ns name : option str)
       (attrs : list (option str * option str * option str))
| Close (ns name : option str).

Definition name_attr (strings : list str) (a : attr_record)
  : option (option str * option str * option str) :=
  match resolve strings (attr_ns a), resolve strings (attr_name a),
        resolve strings (attr_data a) with
  | Some ns, Some name, Some value => Some (ns, name, value)
  | _, _, _ => None
  end.

Fixpoint name_attrs (strings : list str) (l : list attr_record)
  : option (list (option str * option str * option str)) :=
  match l with
  | [] => Some []
  | a :: l' =>
      match name_attr strings a, name_attrs strings l' with
      | Some x, Some xs => Some (x :: xs)
      | _, _ => None
      end
  end.

Definition name_node (strings : list str) (n : node) : option named_node :=
  match n with
  | StringPool count => Some (Pool count)
  | ResourceMap ids => Some (Resources ids)
  | NamespaceStart p u =>
      match resolve strings p, resolve strings u with
      | Some p', Some u' => Some (OpenNamespace p' u')
      | _, _ => None
      end
  | NamespaceEnd p u =>
      match resolve strings p, resolve strings u with
      | Some p', Some u' => Some (CloseNamespace p' u')
      | _, _ => None
      end
  | ElementStart s n attrs =>
      match resolve strings s, resolve strings n, name_attrs strings attrs with
      | Some s', Some n', Some attrs' => Some (Open s' n' attrs')
      | _, _, _ => None
      end
  | ElementEnd s n =>
      match resolve strings s, resolve strings n with
      | Some s', Some n' => Some (Close s' n')
      | _, _ => None
      end
  end.

Fixpoint name_nodes (strings : list str) (l : list node)
  : option (list named_node) :=
  match l with
  | [] => Some []
  | n :: l' =>
      match name_node strings n, name_nodes strings l' with
      | Some x, Some xs => Some (x :: xs)
      | _, _ => None
      end
  end.

(** The attributes of all start-element nodes. *)
Fixpoint all_attributes (nodes : list node) : list attr_record :=
  match nodes with
  | [] => []
  | ElementStart _ _ attrs :: rest => attrs ++ all_attributes rest
  | _ :: rest => all_attributes rest
  end.

Definition android_uri : option str :=
  Some (py "http://schemas.android.com/apk/res/android").

(** The order in which the document lists its chunks. *)
Definition manifest_order : list named_node :=
  [ Pool 14;
    Resources [ANDROID_NAME_RESOURCE_ID];
    OpenNamespace (Some (py "android")) android_uri;
    Open None (Some (py "manifest"))
      [(None, Some (py "package"), Some (py "com.tencent.mm"))];
    Open None (Some (py "application")) [];
    Open android_uri (Some (py "activity"))
      [(android_uri, Some (py "name"), Some (py "com.tencent.mm.ui.MainTabUI"))];
    Open None (Some (py "intent-filter")) [];
    Open android_uri (Some (py "action"))
      [(android_uri, Some (py "name"), Some (py "android.intent.action.MAIN"))];
    Close android_uri (Some (py "action"));
    Open android_uri (Some (py "category"))
      [(android_uri, Some (py "name"),
        Some (py "android.intent.category.LAUNCHER"))];
    Close android_uri (Some (py "category"));
    Close None (Some (py "intent-filter"));
    Close android_uri (Some (py "activity"));
    Close None (Some (py "application"));
    Close None (Some (py "manifest"));
    CloseNamespace (Some (py "android")) android_uri ].

(** The chunks the encoder can produce. *)
Inductive produced : bytes -> Prop :=
| produced_string_pool strings chunk mapping :
    build_string_pool strings = Ok (chunk, mapping) -> produced chunk
| produced_resource_map resource_ids chunk :
    build_resource_map resource_ids = Ok chunk -> produced chunk
| produced_namespace chunk_type prefix_index uri_index chunk :
    namespace_chunk chunk_type prefix_index uri_index = Ok chunk ->
    produced chunk
| produced_start_element ns_index name_index attributes chunk :
    start_element_chunk ns_index name_index attributes = Ok chunk ->
    produced chunk
| produced_end_element ns_index name_index chunk :
    end_element_chunk ns_index name_index = Ok chunk -> produced chunk
| produced_document doc :
    build_manifest = Ok doc -> produced doc.

(** A chunk whose declared size is its extent: [totalSize] is
    [headerSize] plus what follows the header, and the header lies
    within the chunk. *)
Definition self_sized (c : bytes) : Prop :=
  chunk_headerSize c <= len c
  /\ chunk_totalSize c = chunk_headerSize c + len (chunk_payload c)
  /\ chunk_totalSize c = len c.

(** ** A string pool, read back string by string *)

(** The string at an offset of the body: its character count and its
    UTF-8 bytes, which a 0x00 must follow. *)
Definition read_pool_string (body : bytes) (off : Z) : option (Z * bytes) :=
  if off <? 0 then None
  else
    match decode_length (drop (Z.to_nat off) body) with
    | Some (chars, r1) =>
        match decode_length r1 with
        | Some (nbytes, r2) =>
            match r2 !! Z.to_nat nbytes with
            | Some b =>
                if Byte.eqb b Byte.x00
                then Some (chars, take (Z.to_nat nbytes) r2)
                else None
            | None => None
            end
        | None => None
        end
    | None => None
    end.

Fixpoint read_pool_strings (body : bytes) (offs : list Z)
  : option (list (Z * bytes)) :=
  match offs with
  | [] => Some []
  | off :: offs' =>
      match read_pool_string body off, read_pool_strings body offs' with
      | Some s, Some l => Some (s :: l)
      | _, _ => None
      end
  end.

(** A reader of a whole string-pool chunk: it checks the chunk type and
    the UTF-8 flag, follows the offset table from [stringsStart], and
    returns the strings in table order. *)
Definition read_pool (chunk : bytes) : option (list (Z * bytes)) :=
  match chunk_header chunk, pool_fields chunk with
  | Some (ty, _, _), Some [_; _; flags; start; _] =>
      if (ty =? RES_STRING_POOL_TYPE) && negb (Z.land flags 0x100 =? 0) then
        match pool_offset_table chunk with
        | Some offs => read_pool_strings (drop (Z.to_nat start) chunk) offs
        | None => None
        end
      else None
  | _, _ => None
  end.

(** The UTF-8 bytes of a string that has an encoding. *)
Definition utf8_of (text : str) : bytes :=
  match encode_utf8 text with
  | Ok encoded => encoded
  | Raise _ => []
  end.

(** ** The exception for an entry that is too long *)

(** The reading under which an entry longer than 0x3FFF always makes
    [build_string_pool] raise the range error of [encode_length]. *)
Definition overlong_gives_range_error (strings : list str) : Prop :=
  Exists (fun text => overlong text = true) strings ->
  build_string_pool strings = Raise (ValueError range_msg).

(** ** Basic facts: the monad, bytes, pack and unpack *)

Lemma bind_Ok {A B} (m : result A) (k : A -> result B) (v : B) :
  bind m k = Ok v -> exists a, m = Ok a /\ k a = Ok v.
Proof. destruct m as [a|e]; simpl; [eauto | discriminate]. Qed.

Ltac inv_bind H :=
  let a := fresh "a" in
  let Ha := fresh "Ha" in
  apply bind_Ok in H; destruct H as (a & Ha & H).

Lemma len_app {A} (l k : list A) : len (l ++ k) = len l + len k.
Proof. unfold len. rewrite length_app. lia. Qed.

Lemma len_nonneg {A} (l : list A) : 0 <= len l.
Proof. unfold len. lia. Qed.

Lemma len_cons {A} (x : A) (l : list A) : len (x :: l) = 1 + len l.
Proof. unfold len. simpl. lia. Qed.

Lemma Z_of_byte_range (b : Byte.byte) : 0 <= Z_of_byte b < 256.
Proof.
  unfold Z_of_byte. pose proof (Byte.to_N_bounded b). lia.
Qed.

Lemma Z_of_byte_of_Z (z : Z) : Z_of_byte (byte_of_Z z) = z mod 256.
Proof.
  unfold Z_of_byte, byte_of_Z.
  assert (Hr : 0 <= z mod 256 < 256) by (apply Z.mod_pos_bound; lia).
  destruct (Byte.of_N (Z.to_N (z mod 256))) as [b|] eqn:E.
  - apply Byte.to_of_N in E. rewrite E. lia.
  - apply Byte.of_N_None_iff in E. lia.
Qed.

Lemma byte_of_Z_of_byte (b : Byte.byte) : byte_of_Z (Z_of_byte b) = b.
Proof.
  unfold byte_of_Z. pose proof (Z_of_byte_range b) as Hr.
  rewrite Z.mod_small by lia. unfold Z_of_byte.
  rewrite N2Z.id, Byte.of_to_N. reflexivity.
Qed.

Lemma length_le_bytes (n : nat) (v : Z) : length (le_bytes n v) = n.
Proof. revert v. induction n as [|n IH]; intros v; simpl; [|rewrite IH]; reflexivity. Qed.

Lemma le_to_Z_le_bytes (n : nat) (v : Z) :
  0 <= v < 2 ^ (8 * Z.of_nat n) -> le_to_Z (le_bytes n v) = v.
Proof.
  revert v. induction n as [|n IH]; intros v Hv.
  - simpl in *. lia.
  - cbn [le_bytes le_to_Z]. rewrite Z_of_byte_of_Z.
    replace (8 * Z.of_nat (S n)) with (8 + 8 * Z.of_nat n) in Hv by lia.
    rewrite Z.pow_add_r in Hv by lia. change (2 ^ 8) with 256 in Hv.
    rewrite IH.
    + pose proof (Z.div_mod v 256). lia.
    + split; [apply Z.div_pos; lia | apply Z.div_lt_upper_bound; lia].
Qed.

Lemma le_to_Z_range (bs : bytes) : 0 <= le_to_Z bs < 2 ^ (8 * len bs).
Proof.
  induction bs as [|b bs IH].
  - simpl. unfold len. simpl. lia.
  - cbn [le_to_Z]. rewrite len_cons.
    replace (8 * (1 + len bs)) with (8 + 8 * len bs) by lia.
    rewrite Z.pow_add_r by (pose proof (len_nonneg bs); lia).
    change (2 ^ 8) with 256. pose proof (Z_of_byte_range b). nia.
Qed.

Lemma pack1_Ok (f : fmt) (v : Z) (b : bytes) :
  pack1 f v = Ok b ->
  0 <= v < 2 ^ (8 * Z.of_nat (fmt_size f)) /\ b = le_bytes (fmt_size f) v.
Proof.
  unfold pack1. destruct (_ && _) eqn:E; [|discriminate].
  intros [= <-]. apply andb_true_iff in E. destruct E as [E1 E2].
  apply Z.leb_le in E1. apply Z.ltb_lt in E2. auto.
Qed.

Lemma pack1_fits (f : fmt) (v : Z) :
  0 <= v < 2 ^ (8 * Z.of_nat (fmt_size f)) ->
  pack1 f v = Ok (le_bytes (fmt_size f) v).
Proof.
  intros [H1 H2]. unfold pack1.
  apply Z.leb_le in H1. apply Z.ltb_lt in H2. rewrite H1, H2. reflexivity.
Qed.

Lemma pack_length (fs : list fmt) (vs : list Z) (b : bytes) :
  pack fs vs = Ok b -> length b = calcsize fs.
Proof.
  revert vs b. induction fs as [|f fs IH]; intros [|v vs] b H; simpl in H;
    try discriminate.
  - injection H as <-. reflexivity.
  - inv_bind H. inv_bind H. injection H as <-.
    apply pack1_Ok in Ha as [_ ->]. apply IH in Ha0.
    rewrite length_app, length_le_bytes, Ha0. reflexivity.
Qed.

Lemma unpack_pack (fs : list fmt) (vs : list Z) (b rest : bytes) :
  pack fs vs = Ok b -> unpack fs (b ++ rest) = Some (vs, rest).
Proof.
  revert vs b. induction fs as [|f fs IH]; intros [|v vs] b H; simpl in H;
    try discriminate.
  - injection H as <-. reflexivity.
  - inv_bind H. inv_bind H. injection H as <-.
    apply pack1_Ok in Ha as [Hv ->].
    cbn [unpack]. rewrite <- app_assoc.
    assert (Hl : length (le_bytes (fmt_size f) v) = fmt_size f)
      by apply length_le_bytes.
    destruct (Nat.ltb_spec (length (le_bytes (fmt_size f) v ++ a0 ++ rest))
                           (fmt_size f)) as [Hlt|_].
    { rewrite length_app in Hlt. lia. }
    rewrite drop_app_length' by (symmetry; exact Hl).
    rewrite take_app_length' by (symmetry; exact Hl).
    rewrite (IH _ _ Ha0), le_to_Z_le_bytes by exact Hv. reflexivity.
Qed.

Lemma chunk_header_pack (ty hs ts : Z) (h rest : bytes) :
  pack [fmt_H; fmt_H; fmt_I] [ty; hs; ts] = Ok h ->
  chunk_header (h ++ rest) = Some (ty, hs, ts).
Proof.
  intros H. unfold chunk_header. rewrite (unpack_pack _ _ _ _ H). reflexivity.
Qed.

(** ** Bit-level arithmetic *)

Lemma land_shiftl_low (x q k : Z) :
  0 <= k -> 0 <= x < 2 ^ k -> Z.land x (Z.shiftl q k) = 0.
Proof.
  intros Hk Hx. apply Z.bits_inj'. intros i Hi.
  rewrite Z.land_spec, Z.bits_0.
  destruct (Z.lt_ge_cases i k) as [Hlt|Hge].
  - rewrite Z.shiftl_spec_low by lia. apply andb_false_r.
  - destruct (Z.eq_dec x 0) as [->|Hne]; [rewrite Z.bits_0; reflexivity|].
    rewrite (Z.bits_above_log2 x i); [reflexivity | lia |].
    apply Z.log2_lt_pow2; [lia|].
    apply Z.lt_le_trans with (2 ^ k); [lia|].
    apply Z.pow_le_mono_r; lia.
Qed.

Lemma lor_shiftl_low (x q k : Z) :
  0 <= k -> 0 <= x < 2 ^ k -> Z.lor x (Z.shiftl q k) = x + q * 2 ^ k.
Proof.
  intros Hk Hx. pose proof (land_shiftl_low x q k Hk Hx) as H0.
  rewrite <- Z.lxor_lor by exact H0.
  rewrite <- Z.add_nocarry_lxor by exact H0.
  rewrite Z.shiftl_mul_pow2 by lia. reflexivity.
Qed.

Lemma land_7F (n : Z) : Z.land n 0x7F = n mod 128.
Proof. change 0x7F with (Z.ones 7). rewrite Z.land_ones by lia. reflexivity. Qed.

Lemma shiftr_7 (n : Z) : Z.shiftr n 7 = n / 128.
Proof. rewrite Z.shiftr_div_pow2 by lia. reflexivity. Qed.

Lemma lor_flag (x : Z) : 0 <= x < 128 -> Z.lor x 0x80 = x + 128.
Proof.
  intros Hx. change 0x80 with (Z.shiftl 1 7).
  rewrite lor_shiftl_low by (change (2 ^ 7) with 128; lia). reflexivity.
Qed.

Lemma land_flag_clear (x : Z) : 0 <= x < 128 -> Z.land x 0x80 = 0.
Proof.
  intros Hx. change 0x80 with (Z.shiftl 1 7).
  apply land_shiftl_low; [lia | change (2 ^ 7) with 128; lia].
Qed.

Lemma land_flag_set (x : Z) : 0 <= x < 128 -> Z.land (x + 128) 0x80 = 128.
Proof.
  intros Hx. rewrite <- lor_flag by exact Hx.
  rewrite Z.land_lor_distr_l, land_flag_clear by exact Hx. reflexivity.
Qed.

Lemma land_low_of_flagged (x : Z) : 0 <= x < 128 -> Z.land (x + 128) 0x7F = x.
Proof.
  intros Hx. rewrite land_7F.
  replace (x + 128) with (x + 1 * 128) by lia.
  rewrite Z.mod_add by lia. apply Z.mod_small. lia.
Qed.

(** ** encode_length *)

Example encode_length_0x7F : encode_length 0x7F = Ok [Byte.x7f].
Proof. reflexivity. Qed.

Example encode_length_0x80 : encode_length 0x80 = Ok [Byte.x80; Byte.x01].
Proof. reflexivity. Qed.

Example encode_length_0x3FFF : encode_length 0x3FFF = Ok [Byte.xff; Byte.x7f].
Proof. reflexivity. Qed.

Example encode_length_0x4000 :
  encode_length 0x4000 = Raise (ValueError range_msg).
Proof. reflexivity. Qed.

Example encode_length_negative :
  encode_length (-1) = Raise (ValueError range_msg).
Proof. reflexivity. Qed.

Lemma bytes_of_1 (v : Z) : 0 <= v < 256 -> bytes_of [v] = Ok [byte_of_Z v].
Proof.
  intros [H1 H2]. cbn [bytes_of].
  apply Z.leb_le in H1. apply Z.ltb_lt in H2. rewrite H1, H2. reflexivity.
Qed.

Lemma bytes_of_2 (v w : Z) :
  0 <= v < 256 -> 0 <= w < 256 ->
  bytes_of [v; w] = Ok [byte_of_Z v; byte_of_Z w].
Proof.
  intros [H1 H2] [H3 H4]. cbn [bytes_of].
  apply Z.leb_le in H1, H3. apply Z.ltb_lt in H2, H4.
  rewrite H1, H2, H3, H4. reflexivity.
Qed.

Lemma encode_length_out_of_range (n : Z) :
  n < 0 \/ 0x3FFF < n -> encode_length n = Raise (ValueError range_msg).
Proof.
  intros H. unfold encode_length.
  replace ((n <? 0) || (n >? 0x3FFF)) with true; [reflexivity|].
  symmetry. apply orb_true_iff. rewrite Z.ltb_lt, Z.gtb_gt. lia.
Qed.

Lemma encode_length_short (n : Z) :
  0 <= n <= 0x7F -> encode_length n = Ok [byte_of_Z n].
Proof.
  intros H. unfold encode_length.
  replace ((n <? 0) || (n >? 0x3FFF)) with false.
  2:{ symmetry. apply orb_false_iff. rewrite Z.ltb_ge, Z.gtb_ltb, Z.ltb_ge. lia. }
  replace (n <=? 0x7F) with true by (symmetry; apply Z.leb_le; lia).
  apply bytes_of_1. lia.
Qed.

Lemma encode_length_long (n : Z) :
  0x80 <= n <= 0x3FFF ->
  encode_length n =
    Ok [byte_of_Z (Z.lor (Z.land n 0x7F) 0x80); byte_of_Z (Z.shiftr n 7)].
Proof.
  intros H. unfold encode_length.
  replace ((n <? 0) || (n >? 0x3FFF)) with false.
  2:{ symmetry. apply orb_false_iff. rewrite Z.ltb_ge, Z.gtb_ltb, Z.ltb_ge. lia. }
  replace (n <=? 0x7F) with false by (symmetry; apply Z.leb_gt; lia).
  assert (Hm : 0 <= n mod 128 < 128) by (apply Z.mod_pos_bound; lia).
  apply bytes_of_2.
  - rewrite land_7F, lor_flag by exact Hm. lia.
  - rewrite shiftr_7.
    split; [apply Z.div_pos; lia | apply Z.div_lt_upper_bound; lia].
Qed.

(** The only way [encode_length] fails is the range error. *)
Lemma encode_length_cases (n : Z) :
  (0 <= n <= 0x3FFF /\ exists bs, encode_length n = Ok bs /\ 1 <= len bs <= 2)
  \/ ((n < 0 \/ 0x3FFF < n) /\ encode_length n = Raise (ValueError range_msg)).
Proof.
  destruct (Z_lt_le_dec n 0) as [Hneg|Hpos].
  { right. split; [lia|]. apply encode_length_out_of_range. lia. }
  destruct (Z_lt_le_dec 0x3FFF n) as [Hbig|Hsmall].
  { right. split; [lia|]. apply encode_length_out_of_range. lia. }
  left. split; [lia|].
  destruct (Z_le_gt_dec n 0x7F) as [Hs|Hl].
  - eexists. split; [apply encode_length_short; lia|]. unfold len. simpl. lia.
  - eexists. split; [apply encode_length_long; lia|]. unfold len. simpl. lia.
Qed.

(** C4. For every integer [n], [encode_length n] fails, with the range
    error, exactly when [n < 0] or [n > 0x3FFF]; for [0 <= n <= 0x7F] it
    is the single byte [n]; for [0x80 <= n <= 0x3FFF] it is the two
    bytes [(n & 0x7F) | 0x80] and [n >> 7]; and whatever it emits
    decodes back to [n], also when more bytes follow. *)
Theorem encode_length_spec (n : Z) :
  ((exists e, encode_length n = Raise e) <-> (n < 0 \/ 0x3FFF < n))
  /\ ((n < 0 \/ 0x3FFF < n) ->
      encode_length n = Raise (ValueError range_msg))
  /\ (0 <= n <= 0x7F ->
      exists b, encode_length n = Ok [b] /\ Z_of_byte b = n)
  /\ (0x80 <= n <= 0x3FFF ->
      exists b0 b1, encode_length n = Ok [b0; b1]
        /\ Z_of_byte b0 = Z.lor (Z.land n 0x7F) 0x80
        /\ Z_of_byte b1 = Z.shiftr n 7)
  /\ (forall bs rest, encode_length n = Ok bs ->
      decode_length (bs ++ rest) = Some (n, rest)).
Proof.
  assert (Hshort : 0 <= n <= 0x7F ->
            exists b, encode_length n = Ok [b] /\ Z_of_byte b = n).
  { intros H. exists (byte_of_Z n). split; [apply encode_length_short; exact H|].
    rewrite Z_of_byte_of_Z. apply Z.mod_small. lia. }
  assert (Hlong : 0x80 <= n <= 0x3FFF ->
            exists b0 b1, encode_length n = Ok [b0; b1]
              /\ Z_of_byte b0 = Z.lor (Z.land n 0x7F) 0x80
              /\ Z_of_byte b1 = Z.shiftr n 7).
  { intros H. do 2 eexists. split; [apply encode_length_long; exact H|].
    assert (Hm : 0 <= n mod 128 < 128) by (apply Z.mod_pos_bound; lia).
    rewrite !Z_of_byte_of_Z. split.
    - apply Z.mod_small. rewrite land_7F, lor_flag by exact Hm. lia.
    - apply Z.mod_small. rewrite shiftr_7.
      split; [apply Z.div_pos; lia | apply Z.div_lt_upper_bound; lia]. }
  split; [|split; [|split; [|split]]].
  - split.
    + intros [e He]. destruct (encode_length_cases n) as [[_ (bs & Hb & _)]|[Hr _]];
        [congruence | exact Hr].
    + intros H. eexists. apply encode_length_out_of_range. exact H.
  - apply encode_length_out_of_range.
  - exact Hshort.
  - exact Hlong.
  - intros bs rest Hbs.
    destruct (encode_length_cases n) as [[Hr _]|[_ He]]; [|congruence].
    destruct (Z_le_gt_dec n 0x7F) as [Hs|Hl].
    + destruct Hshort as (b & Hb & Hv); [lia|].
      rewrite Hb in Hbs. injection Hbs as <-.
      cbn [app decode_length]. rewrite Hv, land_flag_clear by lia. reflexivity.
    + destruct Hlong as (b0 & b1 & Hb & Hv0 & Hv1); [lia|].
      rewrite Hb in Hbs. injection Hbs as <-.
      assert (Hm : 0 <= n mod 128 < 128) by (apply Z.mod_pos_bound; lia).
      cbn [app decode_length]. rewrite Hv0, Hv1, land_7F, lor_flag by exact Hm.
      rewrite land_flag_set by exact Hm. cbn [Z.eqb].
      rewrite land_low_of_flagged by exact Hm.
      rewrite shiftr_7, lor_shiftl_low by (change (2 ^ 7) with 128; lia).
      f_equal. f_equal. change (2 ^ 7) with 128.
      pose proof (Z.div_mod n 128). lia.
Qed.

Lemma encode_length_spec_witness :
  0 <= 200 <= 0x3FFF /\
  decode_length [byte_of_Z 200; byte_of_Z 1; Byte.x2a]
    = Some (200, [Byte.x2a]).
Proof.
  split; [lia|].
  destruct (encode_length_spec 200) as (_ & _ & _ & _ & Hrt).
  apply (Hrt [byte_of_Z 200; byte_of_Z 1] [Byte.x2a]).
  vm_compute. reflexivity.
Defined.

(** ** build_string_pool *)

Lemma pad_body_spec (body : bytes) :
  exists k : nat,
    pad_body body = body ++ repeat Byte.x00 k
    /\ (k < 4)%nat
    /\ (len body + Z.of_nat k) mod 4 = 0
    /\ (len body mod 4 = 0 -> k = 0%nat).
Proof.
  unfold pad_body. cbn [pad_loop]. rewrite !len_app.
  change (len [Byte.x00]) with 1.
  destruct (Z.eqb_spec (len body mod 4) 0) as [H0|H0].
  { exists 0%nat. cbn [repeat]. rewrite app_nil_r, Z.add_0_r. auto with lia. }
  destruct (Z.eqb_spec ((len body + 1) mod 4) 0) as [H1|H1].
  { exists 1%nat. repeat split; [lia | exact H1 | contradiction]. }
  destruct (Z.eqb_spec ((len body + 1 + 1) mod 4) 0) as [H2|H2].
  { exists 2%nat. rewrite <- app_assoc. repeat split; [lia | | contradiction].
    rewrite <- H2. f_equal. lia. }
  exists 3%nat. rewrite <- !app_assoc. repeat split; [lia | | contradiction].
  pose proof (len_nonneg body). revert H0 H1 H2.
  generalize (len body). intros n. Z.div_mod_to_equations. lia.
Qed.

(** The padding loop stops by itself: its exit condition holds. *)
Lemma pad_body_aligned (body : bytes) : len (pad_body body) mod 4 = 0.
Proof.
  destruct (pad_body_spec body) as (k & -> & _ & Hk & _).
  rewrite len_app. unfold len at 2. rewrite repeat_length. exact Hk.
Qed.

Lemma pad_loop_rounds (k fuel : nat) (body : bytes) :
  (k <= fuel)%nat -> (k < 4)%nat -> (len body + Z.of_nat k) mod 4 = 0 ->
  pad_loop fuel body = body ++ repeat Byte.x00 k.
Proof.
  revert fuel body. induction k as [|k IH]; intros fuel body Hf Hk Hmod.
  - rewrite Z.add_0_r in Hmod. cbn [repeat]. rewrite app_nil_r.
    destruct fuel as [|fuel]; [reflexivity|].
    cbn [pad_loop]. rewrite Hmod. reflexivity.
  - destruct fuel as [|fuel]; [lia|]. cbn [pad_loop repeat].
    destruct (Z.eqb_spec (len body mod 4) 0) as [H0|H0].
    + exfalso. revert Hmod H0. generalize (len body). intros n.
      Z.div_mod_to_equations. lia.
    + rewrite (IH fuel (body ++ [Byte.x00])); [| lia | lia |].
      * rewrite <- app_assoc. reflexivity.
      * rewrite len_app. change (len [Byte.x00]) with 1.
        rewrite <- Hmod. f_equal. lia.
Qed.

(** More rounds than three change nothing. *)
Lemma pad_loop_enough (fuel : nat) (body : bytes) :
  (3 <= fuel)%nat -> pad_loop fuel body = pad_body body.
Proof.
  intros Hf. destruct (pad_body_spec body) as (k & Hk & Hk4 & Hmod & _).
  rewrite Hk. apply pad_loop_rounds; [lia | exact Hk4 | exact Hmod].
Qed.

Lemma pool_loop_entries (strings : list str) (offsets : list Z) (body : bytes) :
  pool_loop strings offsets body =
    let* es := pool_entries strings in
    Ok (offsets ++ chunk_offsets (len body) es, body ++ concat es).
Proof.
  revert offsets body. induction strings as [|text rest IH]; intros offsets body.
  - simpl. rewrite !app_nil_r. reflexivity.
  - cbn [pool_loop pool_entries]. unfold pool_entry.
    destruct (encode_utf8 text) as [enc|e]; [|reflexivity]. cbn [bind].
    destruct (encode_length (len text)) as [l1|e]; [|reflexivity]. cbn [bind].
    destruct (encode_length (len enc)) as [l2|e]; [|reflexivity]. cbn [bind].
    rewrite IH. destruct (pool_entries rest) as [es|e]; [|reflexivity].
    cbn [bind chunk_offsets concat]. f_equal. f_equal.
    + rewrite <- app_assoc. cbn [app]. do 3 f_equal.
      rewrite !len_app. lia.
    + rewrite <- !app_assoc. reflexivity.
Qed.

Lemma pack_I (v : Z) (b : bytes) :
  pack [fmt_I] [v] = Ok b -> 0 <= v < 2 ^ 32 /\ b = le_bytes 4 v.
Proof.
  cbn [pack]. intros H. inv_bind H. apply pack1_Ok in Ha as [Hv ->].
  cbn [bind] in H. rewrite app_nil_r in H. injection H as <-.
  split; [exact Hv | reflexivity].
Qed.

Lemma pack_I_fits (v : Z) : 0 <= v < 2 ^ 32 -> pack [fmt_I] [v] = Ok (le_bytes 4 v).
Proof.
  intros Hv. cbn [pack]. rewrite pack1_fits by exact Hv. cbn [bind].
  rewrite app_nil_r. reflexivity.
Qed.

Lemma length_words (vs : list Z) : length (words vs) = (4 * length vs)%nat.
Proof.
  unfold words. induction vs as [|v vs IH]; [reflexivity|].
  cbn [map concat]. rewrite length_app, length_le_bytes, IH. simpl. lia.
Qed.

Lemma offsets_loop_Ok (offsets : list Z) (chunk c : bytes) :
  offsets_loop offsets chunk = Ok c ->
  Forall (fun o => 0 <= o < 2 ^ 32) offsets /\ c = chunk ++ words offsets.
Proof.
  revert chunk. induction offsets as [|o rest IH]; intros chunk H.
  - injection H as <-. rewrite app_nil_r. auto.
  - cbn [offsets_loop] in H. inv_bind H. apply pack_I in Ha as [Ho ->].
    apply IH in H as [Hr ->]. split; [constructor; assumption|].
    unfold words. cbn [map concat]. rewrite <- app_assoc. reflexivity.
Qed.

Lemma offsets_loop_fits (offsets : list Z) (chunk : bytes) :
  Forall (fun o => 0 <= o < 2 ^ 32) offsets ->
  offsets_loop offsets chunk = Ok (chunk ++ words offsets).
Proof.
  intros H. revert chunk. induction H as [|o rest Ho _ IH]; intros chunk.
  - simpl. rewrite app_nil_r. reflexivity.
  - cbn [offsets_loop]. rewrite pack_I_fits by exact Ho. cbn [bind].
    rewrite IH. unfold words. cbn [map concat]. rewrite <- app_assoc. reflexivity.
Qed.

Lemma unpack_words (vs : list Z) (rest : bytes) :
  Forall (fun o => 0 <= o < 2 ^ 32) vs ->
  unpack (repeat fmt_I (length vs)) (words vs ++ rest) = Some (vs, rest).
Proof.
  induction 1 as [|v vs Hv _ IH]; [reflexivity|].
  unfold words. cbn [map concat length repeat]. rewrite <- app_assoc.
  change (fmt_I :: repeat fmt_I (length vs))
    with ([fmt_I] ++ repeat fmt_I (length vs)).
  cbn [app unpack fmt_size].
  destruct (Nat.ltb_spec (length (le_bytes 4 v ++ concat (map (le_bytes 4) vs) ++ rest)) 4)
    as [Hlt|_].
  { rewrite length_app, length_le_bytes in Hlt. lia. }
  rewrite drop_app_length' by (rewrite length_le_bytes; reflexivity).
  rewrite take_app_length' by (rewrite length_le_bytes; reflexivity).
  fold (words vs). rewrite IH, le_to_Z_le_bytes by exact Hv. reflexivity.
Qed.

Lemma chunk_offsets_bounds (start : Z) (cs : list bytes) :
  Forall (fun o => start <= o <= start + len (concat cs)) (chunk_offsets start cs).
Proof.
  revert start. induction cs as [|c cs IH]; intros start; [constructor|].
  cbn [chunk_offsets concat]. rewrite len_app.
  pose proof (len_nonneg c). pose proof (len_nonneg (concat cs)).
  constructor; [lia|].
  eapply Forall_impl; [apply IH|]. cbn beta. intros o Ho. lia.
Qed.

Lemma length_chunk_offsets (start : Z) (cs : list bytes) :
  length (chunk_offsets start cs) = length cs.
Proof.
  revert start. induction cs as [|c cs IH]; intros start; simpl; [|rewrite IH];
    reflexivity.
Qed.

Lemma pool_entries_length (strings : list str) (entries : list bytes) :
  pool_entries strings = Ok entries -> length entries = length strings.
Proof.
  revert entries. induction strings as [|t rest IH]; intros entries H.
  - injection H as <-. reflexivity.
  - cbn [pool_entries] in H. inv_bind H. inv_bind H. injection H as <-.
    simpl. rewrite (IH _ Ha0). reflexivity.
Qed.

Lemma pool_entries_Forall2 (strings : list str) (entries : list bytes) :
  pool_entries strings = Ok entries <->
  Forall2 (fun text e => pool_entry text = Ok e) strings entries.
Proof.
  split.
  - revert entries. induction strings as [|t rest IH]; intros entries H.
    + injection H as <-. constructor.
    + cbn [pool_entries] in H. inv_bind H. inv_bind H. injection H as <-.
      constructor; auto.
  - induction 1 as [|t e rest es Ht _ IH]; [reflexivity|].
    cbn [pool_entries]. rewrite Ht, IH. reflexivity.
Qed.

(** The chunk in terms of the entries: header, five count fields, the
    offset table, the padded body. *)
Lemma build_string_pool_eq (strings : list str) :
  build_string_pool strings =
    let* entries := pool_entries strings in
    let body := pad_body (concat entries) in
    let* header :=
      pack [fmt_H; fmt_H; fmt_I]
           [RES_STRING_POOL_TYPE; 28; 28 + len strings * 4 + len body] in
    let* fields :=
      pack [fmt_I; fmt_I; fmt_I; fmt_I; fmt_I]
           [len strings; 0; 0x100; 28 + len strings * 4; 0] in
    let* table := offsets_loop (chunk_offsets 0 entries) [] in
    Ok (header ++ fields ++ table ++ body, dict_of (enumerate strings)).
Proof.
  unfold build_string_pool. rewrite pool_loop_entries.
  destruct (pool_entries strings) as [entries|e]; [|reflexivity].
  cbn [bind app]. change (len (@nil Byte.byte)) with 0.
  destruct (pack [fmt_H; fmt_H; fmt_I] _) as [header|e]; [|reflexivity].
  cbn [bind].
  destruct (pack [fmt_I; fmt_I; fmt_I; fmt_I; fmt_I] _) as [fields|e];
    [|reflexivity].
  cbn [bind].
  destruct (offsets_loop (chunk_offsets 0 entries) []) as [table|e] eqn:Et.
  - apply offsets_loop_Ok in Et as [Hr ->].
    rewrite (offsets_loop_fits _ _ Hr). cbn [bind app].
    rewrite <- !app_assoc. reflexivity.
  - destruct (offsets_loop (chunk_offsets 0 entries) (header ++ fields))
      as [c|e'] eqn:Ec.
    + apply offsets_loop_Ok in Ec as [Hr _].
      rewrite (offsets_loop_fits _ _ Hr) in Et. discriminate.
    + cbn [bind]. f_equal.
      (* both loops stop at the first word that does not fit *)
      clear -Et Ec. revert Et Ec. generalize (header ++ fields).
      generalize (@nil Byte.byte).
      induction (chunk_offsets 0 entries) as [|o os IH]; intros c1 c2 H1 H2;
        [discriminate|].
      cbn [offsets_loop] in H1, H2.
      destruct (pack [fmt_I] [o]) as [b|e0]; cbn [bind] in H1, H2.
      * eapply IH; eassumption.
      * congruence.
Qed.

Lemma pack_fits (fs : list fmt) (vs : list Z) :
  Forall2 (fun f v => 0 <= v < 2 ^ (8 * Z.of_nat (fmt_size f))) fs vs ->
  exists b, pack fs vs = Ok b.
Proof.
  induction 1 as [|f v fs vs Hv _ [b IH]]; [eexists; reflexivity|].
  cbn [pack]. rewrite pack1_fits by exact Hv. cbn [bind]. rewrite IH.
  eexists. reflexivity.
Qed.

Ltac fits := repeat (first [apply Forall2_nil_2 | apply Forall2_cons_2]);
  cbn [fmt_size];
  repeat match goal with |- context [2 ^ ?k] =>
    let v := eval vm_compute in (2 ^ k) in change (2 ^ k) with v end;
  try lia.

(** What a successful [build_string_pool] returned. *)
Lemma build_string_pool_Ok (strings : list str) (chunk : bytes)
    (mapping : gmap str Z) :
  build_string_pool strings = Ok (chunk, mapping) ->
  exists entries header fields,
    pool_entries strings = Ok entries
    /\ pack [fmt_H; fmt_H; fmt_I]
            [RES_STRING_POOL_TYPE; 28;
             28 + len strings * 4 + len (pad_body (concat entries))]
       = Ok header
    /\ pack [fmt_I; fmt_I; fmt_I; fmt_I; fmt_I]
            [len strings; 0; 0x100; 28 + len strings * 4; 0] = Ok fields
    /\ Forall (fun o => 0 <= o < 2 ^ 32) (chunk_offsets 0 entries)
    /\ chunk = header ++ fields ++ words (chunk_offsets 0 entries)
                 ++ pad_body (concat entries)
    /\ mapping = dict_of (enumerate strings).
Proof.
  rewrite build_string_pool_eq. intros H.
  apply bind_Ok in H as (entries & He & H). cbn zeta in H.
  apply bind_Ok in H as (header & Hh & H).
  apply bind_Ok in H as (fields & Hf & H).
  apply bind_Ok in H as (table & Ht & H).
  apply offsets_loop_Ok in Ht as [Hr ->]. injection H as <- <-.
  exists entries, header, fields. auto 10.
Qed.

(** It returns whenever every string encodes and the size fits in the
    32-bit size field. *)
Lemma build_string_pool_total (strings : list str) (entries : list bytes) :
  pool_entries strings = Ok entries ->
  pool_size strings < 2 ^ 32 ->
  exists chunk mapping, build_string_pool strings = Ok (chunk, mapping).
Proof.
  intros He Hs. unfold pool_size in Hs. rewrite He in Hs.
  rewrite build_string_pool_eq, He. cbn [bind]. cbn zeta.
  pose proof (len_nonneg strings). pose proof (len_nonneg (pad_body (concat entries))).
  destruct (pack_fits [fmt_H; fmt_H; fmt_I]
    [RES_STRING_POOL_TYPE; 28; 28 + len strings * 4 + len (pad_body (concat entries))])
    as [header ->]; [unfold RES_STRING_POOL_TYPE; fits|].
  destruct (pack_fits [fmt_I; fmt_I; fmt_I; fmt_I; fmt_I]
    [len strings; 0; 0x100; 28 + len strings * 4; 0]) as [fields ->]; [fits|].
  cbn [bind]. rewrite offsets_loop_fits; [cbn [bind]; eauto|].
  eapply Forall_impl; [apply chunk_offsets_bounds|]. cbn beta. intros o Ho.
  destruct (pad_body_spec (concat entries)) as (k & Hk & _).
  rewrite Hk, len_app in Hs. pose proof (len_nonneg (repeat Byte.x00 k)). lia.
Qed.

Section PoolReaders.
Variables (strings : list str) (entries : list bytes).
Variables (header fields : bytes).
Local Abbreviation offs := (chunk_offsets 0 entries).
Local Abbreviation body := (pad_body (concat entries)).
Local Abbreviation chunk := (header ++ fields ++ words offs ++ body).

Hypothesis Hentries : pool_entries strings = Ok entries.
Hypothesis Hheader :
  pack [fmt_H; fmt_H; fmt_I]
       [RES_STRING_POOL_TYPE; 28; 28 + len strings * 4 + len body] = Ok header.
Hypothesis Hfields :
  pack [fmt_I; fmt_I; fmt_I; fmt_I; fmt_I]
       [len strings; 0; 0x100; 28 + len strings * 4; 0] = Ok fields.
Hypothesis Hoffs : Forall (fun o => 0 <= o < 2 ^ 32) offs.

Lemma pool_header_length : length header = 8%nat.
Proof using Hheader. apply (pack_length _ _ _ Hheader). Qed.

Lemma pool_fields_length : length fields = 20%nat.
Proof using Hfields. apply (pack_length _ _ _ Hfields). Qed.

Lemma pool_chunk_length :
  len chunk = 28 + len strings * 4 + len body.
Proof using Hentries Hheader Hfields.
  rewrite !len_app. unfold len at 1 2 3.
  rewrite pool_header_length, pool_fields_length, length_words.
  rewrite length_chunk_offsets, (pool_entries_length _ _ Hentries).
  unfold len. lia.
Qed.

Lemma pool_chunk_header :
  chunk_header chunk
    = Some (RES_STRING_POOL_TYPE, 28, 28 + len strings * 4 + len body).
Proof using Hheader. apply chunk_header_pack. exact Hheader. Qed.

Lemma pool_fields_read :
  pool_fields chunk = Some [len strings; 0; 0x100; 28 + len strings * 4; 0].
Proof using Hheader Hfields.
  unfold pool_fields.
  rewrite drop_app_length' by (symmetry; apply pool_header_length).
  rewrite (unpack_pack _ _ _ _ Hfields). reflexivity.
Qed.

Lemma pool_offset_table_read : pool_offset_table chunk = Some offs.
Proof using Hentries Hheader Hfields Hoffs.
  unfold pool_offset_table, pool_string_count. rewrite pool_fields_read.
  rewrite app_assoc.
  rewrite drop_app_length'
    by (rewrite length_app, pool_header_length, pool_fields_length; reflexivity).
  replace (Z.to_nat (len strings)) with (length offs).
  2:{ rewrite length_chunk_offsets, (pool_entries_length _ _ Hentries).
      unfold len. lia. }
  rewrite unpack_words by exact Hoffs. reflexivity.
Qed.

Lemma pool_body_read : pool_body chunk = Some body.
Proof using Hentries Hheader Hfields.
  unfold pool_body, pool_strings_start. rewrite pool_fields_read.
  rewrite !app_assoc. f_equal.
  apply drop_app_length'.
  rewrite !length_app, pool_header_length, pool_fields_length, length_words.
  rewrite length_chunk_offsets, (pool_entries_length _ _ Hentries).
  unfold len. lia.
Qed.
End PoolReaders.

(** Each offset of a sequence locates its chunk in the concatenation. *)
Lemma chunk_offsets_locate (cs : list bytes) (start : Z) (rest : bytes)
    (i : nat) (off : Z) (c : bytes) :
  chunk_offsets start cs !! i = Some off ->
  cs !! i = Some c ->
  off = start + len (concat (take i cs))
  /\ take (length c) (drop (Z.to_nat (off - start)) (concat cs ++ rest)) = c.
Proof.
  revert start i. induction cs as [|c0 cs IH]; intros start i Ho Hc;
    [discriminate|].
  destruct i as [|i]; cbn in Ho, Hc.
  - injection Ho as <-. injection Hc as ->.
    cbn [take concat]. change (len (@nil Byte.byte)) with 0.
    split; [lia|]. rewrite Z.sub_diag. cbn [Z.to_nat drop].
    rewrite <- app_assoc. apply take_app_length.
  - destruct (IH _ _ Ho Hc) as [Hoff Htake].
    cbn [take concat]. rewrite len_app. split; [lia|].
    rewrite <- app_assoc.
    replace (Z.to_nat (off - start))
      with (length c0 + Z.to_nat (off - (start + len c0)))%nat.
    2:{ pose proof (len_nonneg (concat (take i cs))). unfold len in *. lia. }
    rewrite <- drop_drop, drop_app_length. exact Htake.
Qed.

(** ** UTF-8 and the range of the length codec *)

Example encode_utf8_ascii :
  encode_utf8 (py "name") = Ok [Byte.x6e; Byte.x61; Byte.x6d; Byte.x65].
Proof. reflexivity. Qed.

Example encode_utf8_two_bytes : encode_utf8 [0xE9%N] = Ok [Byte.xc3; Byte.xa9].
Proof. reflexivity. Qed.

Example encode_utf8_three_bytes :
  encode_utf8 [0x20AC%N] = Ok [Byte.xe2; Byte.x82; Byte.xac].
Proof. reflexivity. Qed.

Example encode_utf8_four_bytes :
  encode_utf8 [0x1F600%N] = Ok [Byte.xf0; Byte.x9f; Byte.x98; Byte.x80].
Proof. reflexivity. Qed.

Example encode_utf8_surrogate :
  encode_utf8 [0xD800%N] = Raise UnicodeEncodeError.
Proof. reflexivity. Qed.

Example pool_of_two :
  option_map (map Z_of_byte)
    (match build_string_pool [py "ab"; py "c"] with
     | Ok (chunk, _) => Some chunk
     | Raise _ => None
     end)
  = Some [1; 0; 28; 0; 48; 0; 0; 0;
          2; 0; 0; 0; 0; 0; 0; 0; 0; 1; 0; 0; 36; 0; 0; 0; 0; 0; 0; 0;
          0; 0; 0; 0; 5; 0; 0; 0;
          2; 2; 97; 98; 0; 1; 1; 99; 0; 0; 0; 0].
Proof. vm_compute. reflexivity. Qed.

Lemma utf8_char_scalar (c : N) :
  scalar_value c = true ->
  exists b, utf8_char c = Ok b /\ 1 <= len b <= 4.
Proof.
  unfold scalar_value, utf8_char. intros H.
  assert (Hs : (c < 0xD800 \/ (0xDFFF < c /\ c <= 0x10FFFF))%N).
  { apply orb_true_iff in H as [H|H].
    - left. apply N.ltb_lt. exact H.
    - right. apply andb_true_iff in H as [H1 H2].
      split; [apply N.ltb_lt | apply N.leb_le]; assumption. }
  clear H.
  destruct (N.ltb_spec c 0x80);
    [eexists; split; [reflexivity | unfold len; simpl; lia]|].
  destruct (N.ltb_spec c 0x800);
    [eexists; split; [reflexivity | unfold len; simpl; lia]|].
  destruct (N.ltb_spec c 0x10000).
  - destruct (N.leb_spec 0xD800 c); destruct (N.leb_spec c 0xDFFF); cbn [andb];
      try (eexists; split; [reflexivity | unfold len; simpl; lia]).
    lia.
  - destruct (N.leb_spec c 0x10FFFF);
      [eexists; split; [reflexivity | unfold len; simpl; lia] | lia].
Qed.

Lemma well_formed_encodes (text : str) :
  well_formed text = true ->
  exists enc, encode_utf8 text = Ok enc /\ len text <= len enc.
Proof.
  unfold well_formed. induction text as [|c text IH]; intros H.
  - exists []. split; [reflexivity | unfold len; simpl; lia].
  - cbn [forallb] in H. apply andb_true_iff in H as [Hc Ht].
    destruct (utf8_char_scalar c Hc) as (b & Hb & Hlen).
    destruct (IH Ht) as (enc & He & Hle).
    exists (b ++ enc). cbn [encode_utf8]. rewrite Hb, He. cbn [bind].
    split; [reflexivity|]. rewrite len_app, len_cons. lia.
Qed.

Lemma pool_entry_in_range (text : str) :
  in_codec_range text = true <-> exists e, pool_entry text = Ok e.
Proof.
  unfold in_codec_range, pool_entry.
  destruct (encode_utf8 text) as [enc|e]; cbn [bind].
  2:{ split; [discriminate | intros [? ?]; discriminate]. }
  rewrite andb_true_iff, !Z.leb_le.
  pose proof (len_nonneg text). pose proof (len_nonneg enc).
  destruct (encode_length_cases (len text)) as [[Hr (l1 & -> & _)]|[Hr ->]];
    cbn [bind].
  2:{ split; [lia | intros [? ?]; discriminate]. }
  destruct (encode_length_cases (len enc)) as [[Hr' (l2 & -> & _)]|[Hr' ->]];
    cbn [bind].
  2:{ split; [lia | intros [? ?]; discriminate]. }
  split; [eauto | lia].
Qed.

Lemma pool_entries_in_range (strings : list str) :
  Forall (fun text => in_codec_range text = true) strings ->
  exists entries, pool_entries strings = Ok entries.
Proof.
  induction 1 as [|text rest Ht _ [es IH]]; [eexists; reflexivity|].
  apply pool_entry_in_range in Ht as [e He].
  cbn [pool_entries]. rewrite He, IH. eexists. reflexivity.
Qed.

Lemma pool_entry_well_formed (text : str) :
  well_formed text = true ->
  (overlong text = false /\ exists e, pool_entry text = Ok e)
  \/ (overlong text = true /\ pool_entry text = Raise (ValueError range_msg)).
Proof.
  intros Hw. destruct (well_formed_encodes text Hw) as (enc & He & Hle).
  unfold overlong, pool_entry. rewrite He. cbn [bind].
  destruct (encode_length_cases (len text)) as [[Hr (l1 & -> & _)]|[Hr ->]];
    cbn [bind].
  2:{ right. split; [|reflexivity]. apply orb_true_iff. left.
      apply Z.ltb_lt. pose proof (len_nonneg text). lia. }
  replace (0x3FFF <? len text) with false by (symmetry; apply Z.ltb_ge; lia).
  cbn [orb].
  destruct (encode_length_cases (len enc)) as [[Hr' (l2 & -> & _)]|[Hr' ->]];
    cbn [bind].
  - left. split; [apply Z.ltb_ge; lia | eauto].
  - right. split; [apply Z.ltb_lt; lia | reflexivity].
Qed.

Lemma encode_utf8_Raise (text : str) (e : exn) :
  encode_utf8 text = Raise e -> e = UnicodeEncodeError.
Proof.
  induction text as [|c text IH]; [discriminate|]. cbn [encode_utf8].
  destruct (utf8_char c) as [b|e'] eqn:Ec; cbn [bind].
  - destruct (encode_utf8 text) as [r|e'']; cbn [bind]; [discriminate|].
    intros [= <-]. apply IH. reflexivity.
  - intros [= <-]. unfold utf8_char in Ec.
    repeat match type of Ec with
           | (if ?b then _ else _) = _ => destruct b
           end; congruence.
Qed.

(** A pool entry fails only with a ValueError: the range error of
    [encode_length] or the UnicodeEncodeError of [str.encode]. *)
Lemma pool_entry_Raise (text : str) (e : exn) :
  pool_entry text = Raise e -> is_ValueError e = true.
Proof.
  unfold pool_entry.
  destruct (encode_utf8 text) as [enc|e'] eqn:Ee; cbn [bind].
  2:{ intros [= <-]. rewrite (encode_utf8_Raise _ _ Ee). reflexivity. }
  destruct (encode_length_cases (len text)) as [[_ (l1 & -> & _)]|[_ ->]];
    cbn [bind]; [|intros [= <-]; reflexivity].
  destruct (encode_length_cases (len enc)) as [[_ (l2 & -> & _)]|[_ ->]];
    cbn [bind]; [discriminate | intros [= <-]; reflexivity].
Qed.

Lemma pool_entries_Raise (strings : list str) (e : exn) :
  pool_entries strings = Raise e -> is_ValueError e = true.
Proof.
  induction strings as [|text rest IH]; [discriminate|]. cbn [pool_entries].
  destruct (pool_entry text) as [x|e'] eqn:Ex; cbn [bind].
  - destruct (pool_entries rest) as [xs|e'']; cbn [bind]; [discriminate|].
    intros [= <-]. apply IH. reflexivity.
  - intros [= <-]. eapply pool_entry_Raise. exact Ex.
Qed.

(** C6. For strings within the codec's range, the body of the pool is
    the concatenation, in input order, of one entry per string (the
    two length prefixes, the UTF-8 bytes, one 0x00), followed by fewer
    than four zero bytes that bring it to a multiple of four and by
    nothing else; entry [i] of the offset table is the position in the
    body at which the entry of string [i] starts. *)
Theorem pool_body_layout (strings : list str) :
  Forall (fun text => in_codec_range text = true) strings ->
  pool_size strings < 2 ^ 32 ->
  exists chunk mapping entries body offs (k : nat),
    build_string_pool strings = Ok (chunk, mapping)
    /\ Forall2 (fun text e => pool_entry text = Ok e) strings entries
    /\ pool_body chunk = Some body
    /\ body = concat entries ++ repeat Byte.x00 k
    /\ (k < 4)%nat
    /\ len body mod 4 = 0
    /\ (len (concat entries) mod 4 = 0 -> k = 0%nat)
    /\ pool_offset_table chunk = Some offs
    /\ length offs = length strings
    /\ forall i off e,
         offs !! i = Some off -> entries !! i = Some e ->
         off = len (concat (take i entries))
         /\ take (length e) (drop (Z.to_nat off) body) = e.
Proof.
  intros Hrange Hsize.
  destruct (pool_entries_in_range strings Hrange) as [entries He].
  destruct (build_string_pool_total strings entries He Hsize)
    as (chunk & mapping & Hb).
  destruct (build_string_pool_Ok _ _ _ Hb)
    as (entries' & header & fields & He' & Hh & Hf & Hoffs & -> & _).
  assert (entries' = entries) by congruence. subst entries'.
  destruct (pad_body_spec (concat entries)) as (k & Hk & Hk4 & Hmod & Hzero).
  exists (header ++ fields ++ words (chunk_offsets 0 entries)
            ++ pad_body (concat entries)), mapping, entries,
         (pad_body (concat entries)), (chunk_offsets 0 entries), k.
  split; [exact Hb|].
  split; [apply pool_entries_Forall2; exact He|].
  split; [eapply pool_body_read; eassumption|].
  split; [exact Hk|].
  split; [exact Hk4|].
  split; [apply pad_body_aligned|].
  split; [exact Hzero|].
  split; [eapply pool_offset_table_read; eassumption|].
  split; [rewrite length_chunk_offsets; eapply pool_entries_length; eassumption|].
  intros i off e Hi Hentry. rewrite Hk.
  destruct (chunk_offsets_locate entries 0 (repeat Byte.x00 k) i off e Hi Hentry)
    as [Hoff Htake].
  split; [lia|]. rewrite Z.sub_0_r in Htake. exact Htake.
Qed.

Lemma pool_body_layout_witness :
  exists chunk mapping body,
    build_string_pool [py "name"; py "package"] = Ok (chunk, mapping)
    /\ pool_body chunk = Some body
    /\ len body mod 4 = 0
    /\ pool_offset_table chunk = Some [0; 7].
Proof.
  destruct (pool_body_layout [py "name"; py "package"])
    as (chunk & mapping & entries & body & offs & k
        & Hb & He & Hbody & _ & _ & Hal & _ & Htab & _ & _).
  - repeat (apply Forall_cons_2; [vm_compute; reflexivity|]). apply Forall_nil_2.
  - vm_compute. reflexivity.
  - exists chunk, mapping, body. repeat split; try assumption.
    rewrite Htab. f_equal.
    assert (Hc : build_string_pool [py "name"; py "package"]
                 = Ok (chunk, mapping)) by exact Hb.
    apply build_string_pool_Ok in Hc
      as (es & header & fields & Hes & Hh & Hf & Hoffs & -> & _).
    rewrite (pool_offset_table_read _ _ _ _ Hes Hh Hf Hoffs) in Htab.
    injection Htab as <-. vm_compute in Hes. injection Hes as <-.
    reflexivity.
Defined.

(** ** The string-to-index mapping *)

Lemma dict_of_lookup (l : list str) (i : Z) (m : gmap str Z) (text : str) :
  foldl (fun m p => <[p.2 := p.1]> m) m (enumerate_from i l) !! text =
    match last_index_from i text l with
    | Some j => Some j
    | None => m !! text
    end.
Proof.
  revert i m. induction l as [|x l IH]; intros i m; [reflexivity|].
  cbn [enumerate_from foldl last_index_from]. rewrite IH. cbn [fst snd].
  destruct (last_index_from (i + 1) text l) as [j|]; [reflexivity|].
  rewrite lookup_insert. destruct (decide (x = text)) as [->|Hne].
  - rewrite bool_decide_eq_true_2 by reflexivity. reflexivity.
  - rewrite bool_decide_eq_false_2 by exact Hne. reflexivity.
Qed.

Lemma mapping_lookup (strings : list str) (text : str) :
  dict_of (enumerate strings) !! text = last_index_from 0 text strings.
Proof.
  unfold dict_of, enumerate. rewrite dict_of_lookup, lookup_empty.
  destruct (last_index_from 0 text strings); reflexivity.
Qed.

Lemma last_index_absent (l : list str) (i : Z) (text : str) :
  text ∉ l -> last_index_from i text l = None.
Proof.
  revert i. induction l as [|x l IH]; intros i Hn; [reflexivity|].
  apply not_elem_of_cons in Hn as [Hne Hn]. cbn [last_index_from].
  rewrite IH by exact Hn. rewrite bool_decide_eq_false_2 by congruence.
  reflexivity.
Qed.

Lemma last_index_first_NoDup (l : list str) (i : Z) (text : str) :
  NoDup l -> last_index_from i text l = first_index_from i text l.
Proof.
  intros Hnd. revert i. induction Hnd as [|x l Hx _ IH]; intros i; [reflexivity|].
  cbn [last_index_from first_index_from].
  destruct (decide (x = text)) as [->|Hne].
  - rewrite last_index_absent by exact Hx.
    rewrite bool_decide_eq_true_2 by reflexivity. reflexivity.
  - rewrite bool_decide_eq_false_2 by exact Hne. rewrite IH.
    destruct (first_index_from (i + 1) text l); reflexivity.
Qed.

Lemma dedup_first_NoDup (l seen : list str) :
  NoDup l -> (forall x, x ∈ l -> x ∉ seen) -> dedup_first seen l = l.
Proof.
  intros Hnd. revert seen. induction Hnd as [|x l Hx _ IH]; intros seen Hs;
    [reflexivity|].
  cbn [dedup_first].
  rewrite bool_decide_eq_false_2 by (apply Hs; left).
  f_equal. apply IH. intros y Hy Hin.
  apply elem_of_cons in Hin as [->|Hin]; [contradiction|].
  apply (Hs y); [right; exact Hy | exact Hin].
Qed.

Lemma build_string_pool_count (strings : list str) (chunk : bytes)
    (mapping : gmap str Z) :
  build_string_pool strings = Ok (chunk, mapping) ->
  pool_string_count chunk = Some (len strings).
Proof.
  intros H. apply build_string_pool_Ok in H
    as (es & header & fields & Hes & Hh & Hf & Hoffs & -> & _).
  unfold pool_string_count.
  rewrite (pool_fields_read _ _ _ _ Hh Hf). reflexivity.
Qed.

(** C3, as the code has it. [build_string_pool] writes one pool entry
    per element of its input, in input order, repeats included, and
    maps each string to the position of its last occurrence; on an
    input without repeated strings that is one entry per distinct
    string and the position of its only occurrence. *)
Theorem pool_one_entry_per_input (strings : list str) (chunk : bytes)
    (mapping : gmap str Z) :
  build_string_pool strings = Ok (chunk, mapping) ->
  pool_string_count chunk = Some (len strings)
  /\ (exists entries (k : nat),
        Forall2 (fun text e => pool_entry text = Ok e) strings entries
        /\ pool_body chunk = Some (concat entries ++ repeat Byte.x00 k)
        /\ pool_offset_table chunk = Some (chunk_offsets 0 entries))
  /\ (forall text, mapping !! text = last_index_from 0 text strings)
  /\ (NoDup strings -> deduplicates strings).
Proof.
  intros H. split; [eapply build_string_pool_count; exact H|].
  assert (Hm : forall text, mapping !! text = last_index_from 0 text strings).
  { intros text. apply build_string_pool_Ok in H
      as (_ & _ & _ & _ & _ & _ & _ & _ & ->). apply mapping_lookup. }
  split; [|split; [exact Hm|]].
  - apply build_string_pool_Ok in H
      as (es & header & fields & Hes & Hh & Hf & Hoffs & -> & _).
    destruct (pad_body_spec (concat es)) as (k & Hk & _).
    exists es, k. split; [apply pool_entries_Forall2; exact Hes|].
    rewrite <- Hk.
    split; [eapply pool_body_read | eapply pool_offset_table_read]; eassumption.
  - intros Hnd chunk' mapping' H'. rewrite H in H'. injection H' as <- <-.
    split.
    + rewrite dedup_first_NoDup; [eapply build_string_pool_count; exact H
                                 | exact Hnd | intros x _; apply not_elem_of_nil].
    + intros text _. rewrite Hm. apply last_index_first_NoDup. exact Hnd.
Qed.

Lemma pool_one_entry_per_input_witness :
  exists chunk mapping,
    build_string_pool [py "a"; py "b"; py "a"] = Ok (chunk, mapping)
    /\ pool_string_count chunk = Some 3
    /\ mapping !! py "a" = Some 2.
Proof.
  destruct (build_string_pool [py "a"; py "b"; py "a"])
    as [[chunk mapping]|e] eqn:E; [|vm_compute in E; discriminate].
  exists chunk, mapping. split; [reflexivity|].
  destruct (pool_one_entry_per_input _ _ _ E) as (Hc & _ & Hm & _).
  split; [exact Hc | rewrite Hm; reflexivity].
Defined.

(** The deduplicating reading of C3 fails on a repeated literal: the
    pool of ["a", "a"] has two entries and maps "a" to index 1. *)
Lemma pool_keeps_repeats : ~ deduplicates [py "a"; py "a"].
Proof.
  intros H.
  destruct (build_string_pool [py "a"; py "a"])
    as [[chunk mapping]|e] eqn:E; [|vm_compute in E; discriminate].
  destruct (H _ _ E) as [Hc _].
  rewrite (build_string_pool_count _ _ _ E) in Hc. vm_compute in Hc.
  discriminate.
Qed.

(** ** Resource map, namespace and element chunks *)

Lemma pack_app (fs1 fs2 : list fmt) (vs1 vs2 : list Z) :
  length fs1 = length vs1 ->
  pack (fs1 ++ fs2) (vs1 ++ vs2) =
    let* a := pack fs1 vs1 in
    let* b := pack fs2 vs2 in
    Ok (a ++ b).
Proof.
  revert vs1. induction fs1 as [|f fs1 IH]; intros [|v vs1] Hl;
    try discriminate.
  - cbn [app pack bind]. destruct (pack fs2 vs2); reflexivity.
  - cbn [app pack]. rewrite IH by (simpl in Hl; lia).
    destruct (pack1 f v); cbn [bind]; [|reflexivity].
    destruct (pack fs1 vs1); cbn [bind]; [|reflexivity].
    destruct (pack fs2 vs2); cbn [bind]; [|reflexivity].
    rewrite app_assoc. reflexivity.
Qed.

Lemma res_ids_loop_Ok (ids : list Z) (chunk c : bytes) :
  res_ids_loop ids chunk = Ok c ->
  Forall u32 ids /\ c = chunk ++ words ids.
Proof.
  revert chunk. induction ids as [|o rest IH]; intros chunk H.
  - injection H as <-. rewrite app_nil_r. auto.
  - cbn [res_ids_loop] in H. inv_bind H. apply pack_I in Ha as [Ho ->].
    apply IH in H as [Hr ->]. split; [constructor; assumption|].
    unfold words. cbn [map concat]. rewrite <- app_assoc. reflexivity.
Qed.

Lemma res_ids_loop_fits (ids : list Z) (chunk : bytes) :
  Forall u32 ids -> res_ids_loop ids chunk = Ok (chunk ++ words ids).
Proof.
  intros H. revert chunk. induction H as [|o rest Ho _ IH]; intros chunk.
  - simpl. rewrite app_nil_r. reflexivity.
  - cbn [res_ids_loop]. rewrite pack_I_fits by exact Ho. cbn [bind].
    rewrite IH. unfold words. cbn [map concat]. rewrite <- app_assoc. reflexivity.
Qed.

Lemma build_resource_map_Ok (ids : list Z) (c : bytes) :
  build_resource_map ids = Ok c ->
  exists header,
    pack [fmt_H; fmt_H; fmt_I]
         [RES_XML_RESOURCE_MAP_TYPE; 8; 8 + 4 * len ids] = Ok header
    /\ Forall u32 ids
    /\ c = header ++ words ids.
Proof.
  unfold build_resource_map. intros H.
  apply bind_Ok in H as (header & Hh & H).
  apply res_ids_loop_Ok in H as [Hr ->]. eauto.
Qed.

Lemma build_resource_map_length (ids : list Z) (c : bytes) :
  build_resource_map ids = Ok c -> len c = 8 + 4 * len ids.
Proof.
  intros H. apply build_resource_map_Ok in H as (header & Hh & _ & ->).
  rewrite len_app. unfold len.
  rewrite (pack_length _ _ _ Hh), length_words.
  change (calcsize [fmt_H; fmt_H; fmt_I]) with 8%nat. lia.
Qed.

Lemma build_resource_map_read (ids : list Z) (c : bytes) :
  build_resource_map ids = Ok c -> parse_resource_map c = Some ids.
Proof.
  intros H. apply build_resource_map_Ok in H as (header & Hh & Hr & ->).
  unfold parse_resource_map. rewrite (chunk_header_pack _ _ _ _ _ Hh).
  rewrite drop_app_length' by (symmetry; apply (pack_length _ _ _ Hh)).
  replace (Z.to_nat ((8 + 4 * len ids - 8) / 4)) with (length ids).
  2:{ replace (8 + 4 * len ids - 8) with (len ids * 4) by lia.
      rewrite Z.div_mul by lia. unfold len. lia. }
  rewrite <- (app_nil_r (words ids)), unpack_words by exact Hr. reflexivity.
Qed.

(** The three [struct.pack] calls of a 24-byte chunk are one packing
    of the seven fields. *)
Lemma node_chunk_pack (ty a b : Z) :
  (let* x := pack [fmt_H; fmt_H; fmt_I] [ty; 0x18; 0x18] in
   let* y := pack [fmt_I; fmt_I] [0; 0] in
   let* z := pack [fmt_I; fmt_I] [a; b] in
   Ok ((x ++ y) ++ z))
  = pack [fmt_H; fmt_H; fmt_I; fmt_I; fmt_I; fmt_I; fmt_I]
         [ty; 0x18; 0x18; 0; 0; a; b].
Proof.
  change [fmt_H; fmt_H; fmt_I; fmt_I; fmt_I; fmt_I; fmt_I]
    with ([fmt_H; fmt_H; fmt_I] ++ [fmt_I; fmt_I] ++ [fmt_I; fmt_I]).
  change [ty; 0x18; 0x18; 0; 0; a; b] with ([ty; 0x18; 0x18] ++ [0; 0] ++ [a; b]).
  rewrite !pack_app by reflexivity.
  destruct (pack [fmt_H; fmt_H; fmt_I] _); cbn [bind]; [|reflexivity].
  destruct (pack [fmt_I; fmt_I] [0; 0]); cbn [bind]; [|reflexivity].
  destruct (pack [fmt_I; fmt_I] [a; b]); cbn [bind]; [|reflexivity].
  rewrite app_assoc. reflexivity.
Qed.

Lemma namespace_chunk_eq (ty prefix uri : Z) :
  namespace_chunk ty prefix uri =
    pack [fmt_H; fmt_H; fmt_I; fmt_I; fmt_I; fmt_I; fmt_I]
         [ty; 0x18; 0x18; 0; 0; prefix; uri].
Proof. unfold namespace_chunk. apply node_chunk_pack. Qed.

Lemma end_element_chunk_eq (ns : option Z) (name : Z) :
  end_element_chunk ns name =
    pack [fmt_H; fmt_H; fmt_I; fmt_I; fmt_I; fmt_I; fmt_I]
         [RES_XML_END_ELEMENT_TYPE; 0x18; 0x18; 0; 0;
          index_or_sentinel ns; name].
Proof. unfold end_element_chunk. apply node_chunk_pack. Qed.

Lemma node_chunk_read (ty a b : Z) (c : bytes) :
  pack [fmt_H; fmt_H; fmt_I; fmt_I; fmt_I; fmt_I; fmt_I]
       [ty; 0x18; 0x18; 0; 0; a; b] = Ok c ->
  len c = 24
  /\ chunk_header c = Some (ty, 24, 24)
  /\ parse_node_chunk c = Some (NodeChunk ty 24 24 0 0 a b).
Proof.
  intros H. split; [unfold len; rewrite (pack_length _ _ _ H); reflexivity|].
  split.
  - change [fmt_H; fmt_H; fmt_I; fmt_I; fmt_I; fmt_I; fmt_I]
      with ([fmt_H; fmt_H; fmt_I] ++ [fmt_I; fmt_I; fmt_I; fmt_I]) in H.
    change [ty; 0x18; 0x18; 0; 0; a; b]
      with ([ty; 0x18; 0x18] ++ [0; 0; a; b]) in H.
    rewrite pack_app in H by reflexivity.
    apply bind_Ok in H as (x & Hx & H). apply bind_Ok in H as (y & Hy & H).
    injection H as <-. apply (chunk_header_pack _ _ _ _ _ Hx).
  - unfold parse_node_chunk.
    rewrite <- (app_nil_r c), (unpack_pack _ _ _ _ H). reflexivity.
Qed.

Lemma pack_Ok_fits (fs : list fmt) (vs : list Z) (b : bytes) :
  pack fs vs = Ok b ->
  Forall2 (fun f v => 0 <= v < 2 ^ (8 * Z.of_nat (fmt_size f))) fs vs.
Proof.
  revert vs b. induction fs as [|f fs IH]; intros [|v vs] b H; simpl in H;
    try discriminate; [constructor|].
  inv_bind H. inv_bind H. apply pack1_Ok in Ha as [Hv _].
  constructor; [exact Hv | eapply IH; eassumption].
Qed.

(** The four [struct.pack] calls of one attribute are one packing of
    its seven fields. *)
Lemma attr_pack (x1 x2 x3 ty d : Z) :
  (let* b1 := pack [fmt_I] [x1] in
   let* b2 := pack [fmt_I] [x2] in
   let* b3 := pack [fmt_I] [x3] in
   let* b4 := pack [fmt_H; fmt_B; fmt_B; fmt_I] [8; 0; ty; d] in
   Ok (b1 ++ b2 ++ b3 ++ b4))
  = pack [fmt_I; fmt_I; fmt_I; fmt_H; fmt_B; fmt_B; fmt_I]
         [x1; x2; x3; 8; 0; ty; d].
Proof.
  change [fmt_I; fmt_I; fmt_I; fmt_H; fmt_B; fmt_B; fmt_I]
    with ([fmt_I] ++ [fmt_I] ++ [fmt_I] ++ [fmt_H; fmt_B; fmt_B; fmt_I]).
  change [x1; x2; x3; 8; 0; ty; d] with ([x1] ++ [x2] ++ [x3] ++ [8; 0; ty; d]).
  rewrite !pack_app by reflexivity.
  destruct (pack [fmt_I] [x1]); cbn [bind]; [|reflexivity].
  destruct (pack [fmt_I] [x2]); cbn [bind]; [|reflexivity].
  destruct (pack [fmt_I] [x3]); cbn [bind]; [|reflexivity].
  destruct (pack [fmt_H; fmt_B; fmt_B; fmt_I] _); reflexivity.
Qed.

Lemma attr_fits_pack (a : attribute) :
  attr_fits a ->
  exists b,
    pack [fmt_I; fmt_I; fmt_I; fmt_H; fmt_B; fmt_B; fmt_I]
         [attr_ns (record_of a); attr_name (record_of a);
          attr_raw (record_of a); 8; 0; attr_dataType (record_of a);
          attr_data (record_of a)] = Ok b.
Proof.
  destruct a as [[[ns name] raw] [ty data]]. unfold attr_fits, u32.
  intros (H1 & H2 & H3 & H4 & H5). cbn [record_of attr_ns attr_name attr_raw
    attr_dataType attr_data].
  apply pack_fits. fits.
Qed.

Lemma attributes_loop_eq (attributes : list attribute) (chunk : bytes) :
  attributes_loop attributes chunk =
    match attributes with
    | [] => Ok chunk
    | a :: rest =>
        let* b :=
          pack [fmt_I; fmt_I; fmt_I; fmt_H; fmt_B; fmt_B; fmt_I]
               [attr_ns (record_of a); attr_name (record_of a);
                attr_raw (record_of a); 8; 0; attr_dataType (record_of a);
                attr_data (record_of a)] in
        attributes_loop rest (chunk ++ b)
    end.
Proof.
  destruct attributes as [|[[[ns name] raw] [ty data]] rest]; [reflexivity|].
  cbn [attributes_loop record_of attr_ns attr_name attr_raw attr_dataType
       attr_data].
  rewrite <- attr_pack.
  destruct (pack [fmt_I] [index_or_sentinel ns]); cbn [bind]; [|reflexivity].
  destruct (pack [fmt_I] [name]); cbn [bind]; [|reflexivity].
  destruct (pack [fmt_I] [index_or_sentinel raw]); cbn [bind]; [|reflexivity].
  destruct (pack [fmt_H; fmt_B; fmt_B; fmt_I] _); cbn [bind]; [|reflexivity].
  rewrite <- !app_assoc. reflexivity.
Qed.

Lemma attributes_loop_Ok (attributes : list attribute) (chunk c : bytes) :
  attributes_loop attributes chunk = Ok c ->
  Forall attr_fits attributes
  /\ exists recs,
       c = chunk ++ recs
       /\ length recs = (20 * length attributes)%nat
       /\ forall rest,
            parse_attrs (length attributes) (recs ++ rest)
              = Some (map record_of attributes, rest).
Proof.
  revert chunk. induction attributes as [|a rest IH]; intros chunk H.
  - injection H as <-. split; [constructor|]. exists [].
    rewrite app_nil_r. auto.
  - rewrite attributes_loop_eq in H. apply bind_Ok in H as (b & Hb & H).
    apply IH in H as (Hfits & recs & -> & Hlen & Hparse). split.
    + constructor; [|exact Hfits].
      apply pack_Ok_fits in Hb.
      destruct a as [[[ns name] raw] [ty data]].
      cbn [record_of attr_ns attr_name attr_raw attr_dataType attr_data] in Hb.
      repeat match goal with
             | H : Forall2 _ (_ :: _) (_ :: _) |- _ =>
                 apply Forall2_cons_1 in H; destruct H
             end.
      cbn [fmt_size] in *. unfold attr_fits, u32.
      change (2 ^ (8 * Z.of_nat 4)) with (2 ^ 32) in *.
      change (2 ^ (8 * Z.of_nat 1)) with 256 in *. auto.
    + exists (b ++ recs). rewrite <- app_assoc. split; [reflexivity|].
      split.
      * rewrite length_app, (pack_length _ _ _ Hb), Hlen. simpl. lia.
      * intros rest'. cbn [length parse_attrs]. unfold parse_attr.
        rewrite <- app_assoc, (unpack_pack _ _ _ _ Hb), Hparse.
        destruct a as [[[ns name] raw] [ty data]]. reflexivity.
Qed.

Lemma attributes_loop_fits (attributes : list attribute) (chunk : bytes) :
  Forall attr_fits attributes ->
  exists c, attributes_loop attributes chunk = Ok c.
Proof.
  intros H. revert chunk. induction H as [|a rest Ha _ IH]; intros chunk.
  - eexists. reflexivity.
  - rewrite attributes_loop_eq. destruct (attr_fits_pack a Ha) as [b ->].
    cbn [bind]. apply IH.
Qed.

(** The header of a start-element chunk is one packing of thirteen
    fields. *)
Lemma start_element_chunk_eq (ns : option Z) (name : Z)
    (attributes : list attribute) :
  start_element_chunk ns name attributes =
    let* header :=
      pack [fmt_H; fmt_H; fmt_I; fmt_I; fmt_I; fmt_I; fmt_I;
            fmt_H; fmt_H; fmt_H; fmt_H; fmt_H; fmt_H]
           [RES_XML_START_ELEMENT_TYPE; 0x24; 0x24 + 0x14 * len attributes;
            0; 0; index_or_sentinel ns; name;
            0x14; 0x14; len attributes; 0; 0; 0] in
    attributes_loop attributes header.
Proof.
  unfold start_element_chunk.
  change [fmt_H; fmt_H; fmt_I; fmt_I; fmt_I; fmt_I; fmt_I;
          fmt_H; fmt_H; fmt_H; fmt_H; fmt_H; fmt_H]
    with ([fmt_H; fmt_H; fmt_I] ++ [fmt_I; fmt_I] ++ [fmt_I; fmt_I]
          ++ [fmt_H; fmt_H; fmt_H; fmt_H; fmt_H; fmt_H]).
  change [RES_XML_START_ELEMENT_TYPE; 0x24; 0x24 + 0x14 * len attributes;
          0; 0; index_or_sentinel ns; name; 0x14; 0x14; len attributes; 0; 0; 0]
    with ([RES_XML_START_ELEMENT_TYPE; 0x24; 0x24 + 0x14 * len attributes]
          ++ [0; 0] ++ [index_or_sentinel ns; name]
          ++ [0x14; 0x14; len attributes; 0; 0; 0]).
  rewrite !pack_app by reflexivity. cbn zeta.
  destruct (pack [fmt_H; fmt_H; fmt_I] _); cbn [bind]; [|reflexivity].
  destruct (pack [fmt_I; fmt_I] [0; 0]); cbn [bind]; [|reflexivity].
  destruct (pack [fmt_I; fmt_I] [index_or_sentinel ns; name]); cbn [bind];
    [|reflexivity].
  destruct (pack [fmt_H; fmt_H; fmt_H; fmt_H; fmt_H; fmt_H] _); cbn [bind];
    [|reflexivity].
  cbn [app]. rewrite <- !app_assoc. reflexivity.
Qed.

Lemma start_element_chunk_Ok (ns : option Z) (name : Z)
    (attributes : list attribute) (c : bytes) :
  start_element_chunk ns name attributes = Ok c ->
  len c = 36 + 20 * len attributes
  /\ chunk_header c
       = Some (RES_XML_START_ELEMENT_TYPE, 36, 36 + 20 * len attributes)
  /\ Forall attr_fits attributes
  /\ parse_start_element c
       = Some (StartElement RES_XML_START_ELEMENT_TYPE 36
                 (36 + 20 * len attributes) 0 0 (index_or_sentinel ns) name
                 0x14 0x14 (len attributes) 0 0 0
                 (map record_of attributes)).
Proof.
  rewrite start_element_chunk_eq. intros H.
  apply bind_Ok in H as (header & Hh & H).
  apply attributes_loop_Ok in H as (Hfits & recs & -> & Hlen & Hparse).
  split; [|split; [|split; [exact Hfits|]]].
  - rewrite len_app. unfold len. rewrite (pack_length _ _ _ Hh), Hlen.
    change (calcsize _) with 36%nat. lia.
  - change [fmt_H; fmt_H; fmt_I; fmt_I; fmt_I; fmt_I; fmt_I;
            fmt_H; fmt_H; fmt_H; fmt_H; fmt_H; fmt_H]
      with ([fmt_H; fmt_H; fmt_I] ++ [fmt_I; fmt_I; fmt_I; fmt_I;
            fmt_H; fmt_H; fmt_H; fmt_H; fmt_H; fmt_H]) in Hh.
    change [RES_XML_START_ELEMENT_TYPE; 0x24; 0x24 + 0x14 * len attributes;
            0; 0; index_or_sentinel ns; name; 0x14; 0x14; len attributes; 0; 0; 0]
      with ([RES_XML_START_ELEMENT_TYPE; 0x24; 0x24 + 0x14 * len attributes]
            ++ [0; 0; index_or_sentinel ns; name;
                0x14; 0x14; len attributes; 0; 0; 0]) in Hh.
    rewrite pack_app in Hh by reflexivity.
    apply bind_Ok in Hh as (x & Hx & Hh). apply bind_Ok in Hh as (y & Hy & Hh).
    injection Hh as <-. rewrite <- app_assoc.
    apply (chunk_header_pack _ _ _ _ _ Hx).
  - unfold parse_start_element. rewrite (unpack_pack _ _ _ _ Hh).
    replace (Z.to_nat (len attributes)) with (length attributes)
      by (unfold len; lia).
    rewrite <- (app_nil_r recs), Hparse. reflexivity.
Qed.

Lemma start_element_chunk_fits (ns : option Z) (name : Z)
    (attributes : list attribute) :
  u32 (index_or_sentinel ns) -> u32 name -> len attributes < 2 ^ 16 ->
  Forall attr_fits attributes ->
  exists c, start_element_chunk ns name attributes = Ok c.
Proof.
  unfold u32. intros Hns Hname Hlen Hfits.
  rewrite start_element_chunk_eq.
  pose proof (len_nonneg attributes).
  change (2 ^ 16) with 65536 in Hlen.
  destruct (pack_fits
    [fmt_H; fmt_H; fmt_I; fmt_I; fmt_I; fmt_I; fmt_I;
     fmt_H; fmt_H; fmt_H; fmt_H; fmt_H; fmt_H]
    [RES_XML_START_ELEMENT_TYPE; 0x24; 0x24 + 0x14 * len attributes;
     0; 0; index_or_sentinel ns; name; 0x14; 0x14; len attributes; 0; 0; 0])
    as [header ->]; [unfold RES_XML_START_ELEMENT_TYPE; fits|].
  cbn [bind]. apply attributes_loop_fits. exact Hfits.
Qed.

Lemma end_element_chunk_fits (ns : option Z) (name : Z) :
  u32 (index_or_sentinel ns) -> u32 name ->
  exists c, end_element_chunk ns name = Ok c.
Proof.
  unfold u32. intros Hns Hname. rewrite end_element_chunk_eq.
  apply pack_fits. unfold RES_XML_END_ELEMENT_TYPE. fits.
Qed.

(** C8. A start-element chunk is 36 bytes of header and 20 bytes per
    attribute; read back field by field it carries the namespace
    reference as index-or-0xFFFFFFFF and the name index, and each
    attribute record is, in this order, namespace (index or sentinel),
    name, raw value (index or sentinel), size 8, a zero byte, the data
    type and the data value, as they were passed; the end-element
    chunk is 24 bytes with the same two references.  The sentinel for
    an absent index is 0xFFFFFFFF, and every attribute of the document
    is a string attribute whose data value is the index of its raw
    value in the pool. *)
Theorem element_chunk_layout :
  (forall (ns_index : option Z) (name_index : Z) (attributes : list attribute),
     u32 (index_or_sentinel ns_index) -> u32 name_index ->
     len attributes < 2 ^ 16 -> Forall attr_fits attributes ->
     exists c e,
       start_element_chunk ns_index name_index attributes = Ok c
       /\ len c = 36 + 20 * len attributes
       /\ parse_start_element c
            = Some (StartElement RES_XML_START_ELEMENT_TYPE 36
                      (36 + 20 * len attributes) 0 0
                      (index_or_sentinel ns_index) name_index
                      0x14 0x14 (len attributes) 0 0 0
                      (map record_of attributes))
       /\ end_element_chunk ns_index name_index = Ok e
       /\ len e = 24
       /\ parse_node_chunk e
            = Some (NodeChunk RES_XML_END_ELEMENT_TYPE 24 24 0 0
                      (index_or_sentinel ns_index) name_index))
  /\ index_or_sentinel None = 0xFFFFFFFF
  /\ (forall i, index_or_sentinel (Some i) = i)
  /\ (forall ns name raw ty data,
        record_of (ns, name, raw, (ty, data))
          = AttrRecord (index_or_sentinel ns) name (index_or_sentinel raw)
                       8 0 ty data)
  /\ exists chunks nodes,
       manifest_chunks = Ok chunks
       /\ parse_nodes chunks = Some nodes
       /\ Forall (fun a => attr_dataType a = DATA_TYPE_STRING
                           /\ attr_data a = attr_raw a
                           /\ 0 <= attr_data a < len manifest_strings)
                 (all_attributes nodes).
Proof.
  split; [|split; [reflexivity | split; [reflexivity | split; [reflexivity|]]]].
  - intros ns name attrs Hns Hname Hlen Hfits.
    destruct (start_element_chunk_fits ns name attrs Hns Hname Hlen Hfits)
      as [c Hc].
    destruct (end_element_chunk_fits ns name Hns Hname) as [e He].
    exists c, e.
    destruct (start_element_chunk_Ok _ _ _ _ Hc) as (Hl & _ & _ & Hp).
    rewrite end_element_chunk_eq in He.
    destruct (node_chunk_read _ _ _ _ He) as (Hel & _ & Hep).
    rewrite end_element_chunk_eq. auto 10.
  - eexists. eexists. split; [vm_compute; reflexivity|].
    split; [vm_compute; reflexivity|].
    vm_compute. repeat constructor; discriminate.
Qed.

Lemma element_chunk_layout_witness :
  exists c,
    start_element_chunk None 0 [(None, 3, Some 10, (DATA_TYPE_STRING, 10))]
      = Ok c
    /\ len c = 56.
Proof.
  destruct element_chunk_layout as [H _].
  destruct (H None 0 [(None, 3, Some 10, (DATA_TYPE_STRING, 10))])
    as (c & e & Hc & Hl & _).
  - unfold u32. simpl. lia.
  - unfold u32. lia.
  - unfold len. simpl. lia.
  - repeat constructor; unfold u32, DATA_TYPE_STRING; simpl; lia.
  - exists c. split; [exact Hc | exact Hl].
Defined.

(** ** Declared sizes and alignment *)

Lemma self_sized_intro (c : bytes) (ty hs ts : Z) :
  chunk_header c = Some (ty, hs, ts) ->
  len c = ts -> 0 <= hs <= ts ->
  self_sized c.
Proof.
  intros Hh Hl Hhs. unfold self_sized, chunk_payload, chunk_headerSize,
    chunk_totalSize. rewrite Hh.
  split; [lia|]. split; [|lia].
  unfold len in *. rewrite length_drop. lia.
Qed.

(** The header and the length of every chunk a builder returns. *)
Lemma produced_header (c : bytes) :
  produced c ->
  exists ty hs ts,
    chunk_header c = Some (ty, hs, ts)
    /\ len c = ts /\ 0 <= hs <= ts /\ ts mod 4 = 0.
Proof.
  intros [strings chunk mapping H | ids chunk H | ty p u chunk H
         | ns name attrs chunk H | ns name chunk H | doc H].
  - apply build_string_pool_Ok in H
      as (es & header & fields & Hes & Hh & Hf & Hoffs & -> & _).
    do 3 eexists.
    split; [eapply pool_chunk_header; exact Hh|].
    split; [eapply pool_chunk_length; eassumption|].
    pose proof (len_nonneg strings).
    pose proof (len_nonneg (pad_body (concat es))).
    pose proof (pad_body_aligned (concat es)).
    split; [lia|]. Z.div_mod_to_equations. lia.
  - pose proof (build_resource_map_length _ _ H) as Hl.
    apply build_resource_map_Ok in H as (header & Hh & _ & ->).
    do 3 eexists.
    split; [apply (chunk_header_pack _ _ _ _ _ Hh)|].
    pose proof (len_nonneg ids).
    split; [exact Hl|]. split; [lia|]. Z.div_mod_to_equations. lia.
  - rewrite namespace_chunk_eq in H.
    destruct (node_chunk_read _ _ _ _ H) as (Hl & Hh & _).
    do 3 eexists. split; [exact Hh|]. split; [exact Hl|].
    split; [lia | reflexivity].
  - destruct (start_element_chunk_Ok _ _ _ _ H) as (Hl & Hh & _ & _).
    do 3 eexists. split; [exact Hh|]. split; [exact Hl|].
    pose proof (len_nonneg attrs). split; [lia|].
    Z.div_mod_to_equations. lia.
  - rewrite end_element_chunk_eq in H.
    destruct (node_chunk_read _ _ _ _ H) as (Hl & Hh & _).
    do 3 eexists. split; [exact Hh|]. split; [exact Hl|].
    split; [lia | reflexivity].
  - assert (Hd : exists d, build_manifest = Ok d
                   /\ chunk_header d = Some (RES_XML_TYPE, 8, 848)
                   /\ len d = 848).
    { eexists. split; [vm_compute; reflexivity|].
      split; vm_compute; reflexivity. }
    destruct Hd as (d & Hd & Hh & Hl).
    assert (d = doc) by congruence. subst d.
    do 3 eexists. split; [exact Hh|]. split; [exact Hl|].
    split; [lia | reflexivity].
Qed.

Lemma sum_sizes_concat (cs : list bytes) :
  Forall (fun c => chunk_totalSize c = len c) cs ->
  sum_list_with (fun c => Z.to_nat (chunk_totalSize c)) cs = length (concat cs).
Proof.
  induction 1 as [|c cs Hc _ IH]; [reflexivity|].
  cbn [sum_list_with concat]. rewrite length_app, IH, Hc. unfold len. lia.
Qed.

(** C1. Every chunk a builder returns declares, as [totalSize], its
    [headerSize] plus the length of what follows the header, which is
    its serialized length.  In the buffer of [build_manifest], walking
    the payload by the declared sizes yields exactly the sixteen
    chunks that were joined, each of them such a chunk, and the outer
    chunk declares a header of 8 and 8 plus the sum of their sizes. *)
Theorem chunk_sizes_match_extents :
  (forall c, produced c -> self_sized c)
  /\ exists doc chunks,
       build_manifest = Ok doc
       /\ manifest_chunks = Ok chunks
       /\ document_chunks doc = Some chunks
       /\ length chunks = 16%nat
       /\ Forall self_sized chunks
       /\ self_sized doc
       /\ chunk_headerSize doc = 8
       /\ chunk_totalSize doc
            = 8 + Z.of_nat (sum_list_with
                              (fun c => Z.to_nat (chunk_totalSize c)) chunks).
Proof.
  assert (Hgen : forall c, produced c -> self_sized c).
  { intros c Hc. destruct (produced_header c Hc) as (ty & hs & ts & Hh & Hl & Hr & _).
    eapply self_sized_intro; eassumption. }
  split; [exact Hgen|].
  destruct build_manifest as [doc|e] eqn:Ed; [|vm_compute in Ed; discriminate].
  destruct manifest_chunks as [chunks|e] eqn:Ec; [|vm_compute in Ec; discriminate].
  assert (Hwalk : document_chunks doc = Some chunks).
  { vm_compute in Ed, Ec. injection Ed as <-. injection Ec as <-.
    vm_compute. reflexivity. }
  assert (Hlen : length chunks = 16%nat).
  { vm_compute in Ec. injection Ec as <-. reflexivity. }
  assert (Hall : Forall self_sized chunks).
  { unfold manifest_chunks in Ec.
    repeat match type of Ec with
           | bind ?m _ = Ok _ =>
               let a := fresh "a" in
               let Ha := fresh "Ha" in
               apply bind_Ok in Ec as (a & Ha & Ec);
               try (destruct a as [? ?])
           end.
    injection Ec as <-. cbn [app].
    repeat (apply Forall_cons_2;
            [apply Hgen; econstructor; eassumption|]).
    apply Forall_nil_2. }
  exists doc, chunks.
  split; [reflexivity|]. split; [reflexivity|]. split; [exact Hwalk|].
  split; [exact Hlen|]. split; [exact Hall|].
  assert (Hdoc : self_sized doc)
    by (apply Hgen; apply produced_document; exact Ed).
  split; [exact Hdoc|].
  unfold build_manifest in Ed. rewrite Ec in Ed. cbn [bind] in Ed.
  apply bind_Ok in Ed as (header & Hh & Ed). injection Ed as <-.
  unfold chunk_headerSize, chunk_totalSize.
  rewrite (chunk_header_pack _ _ _ _ _ Hh).
  split; [reflexivity|].
  rewrite sum_sizes_concat.
  - unfold len. lia.
  - eapply Forall_impl; [exact Hall|]. intros c (_ & _ & H). exact H.
Qed.

Lemma chunk_sizes_match_extents_witness :
  exists c,
    build_resource_map [ANDROID_NAME_RESOURCE_ID] = Ok c
    /\ chunk_totalSize c = len c.
Proof.
  destruct (build_resource_map [ANDROID_NAME_RESOURCE_ID]) as [c|e] eqn:E;
    [|vm_compute in E; discriminate].
  exists c. split; [reflexivity|].
  destruct chunk_sizes_match_extents as [H _].
  destruct (H c (produced_resource_map _ _ E)) as (_ & _ & Hs). exact Hs.
Defined.

(** C10. The [totalSize] and the length of every chunk a builder
    returns are multiples of four, the body of a string pool being
    padded to one; hence in the buffer of [build_manifest] every chunk
    starts at an offset that is a multiple of four. *)
Theorem chunks_are_aligned :
  (forall c, produced c -> chunk_totalSize c mod 4 = 0 /\ len c mod 4 = 0)
  /\ (forall strings chunk mapping,
        build_string_pool strings = Ok (chunk, mapping) ->
        exists body, pool_body chunk = Some body /\ len body mod 4 = 0)
  /\ exists doc chunks,
       build_manifest = Ok doc
       /\ document_chunks doc = Some chunks
       /\ length (chunk_offsets 8 chunks) = 16%nat
       /\ Forall (fun off => off mod 4 = 0) (chunk_offsets 8 chunks).
Proof.
  split; [|split].
  - intros c Hc.
    destruct (produced_header c Hc) as (ty & hs & ts & Hh & Hl & _ & Hm).
    unfold chunk_totalSize. rewrite Hh, Hl. auto.
  - intros strings chunk mapping H.
    apply build_string_pool_Ok in H
      as (es & header & fields & Hes & Hh & Hf & Hoffs & -> & _).
    exists (pad_body (concat es)).
    split; [eapply pool_body_read; eassumption | apply pad_body_aligned].
  - eexists. eexists. split; [vm_compute; reflexivity|].
    split; [vm_compute; reflexivity|].
    split; [vm_compute; reflexivity|].
    vm_compute. repeat constructor.
Qed.

Lemma chunks_are_aligned_witness :
  exists c,
    start_element_chunk None 4 [] = Ok c /\ chunk_totalSize c mod 4 = 0.
Proof.
  destruct (start_element_chunk None 4 []) as [c|e] eqn:E;
    [|vm_compute in E; discriminate].
  exists c. split; [reflexivity|].
  destruct chunks_are_aligned as [H _].
  destruct (H c (produced_start_element _ _ _ _ E)) as [Hs _]. exact Hs.
Defined.

(** ** The order and the nesting of the document *)

Lemma starts_closed_once_spec (nodes : list node) :
  starts_closed_once nodes = true ->
  forall i ns name attrs,
    nodes !! i = Some (ElementStart ns name attrs) ->
    count_ends ns name (drop (S i) nodes) = 1%nat.
Proof.
  induction nodes as [|n nodes IH]; intros H i ns name attrs Hi;
    [discriminate|].
  destruct i as [|i].
  - injection Hi as ->. cbn [starts_closed_once] in H.
    apply andb_true_iff in H as [H _]. apply Nat.eqb_eq in H. exact H.
  - cbn [drop]. apply (IH) with (attrs := attrs); [|exact Hi].
    destruct n; cbn [starts_closed_once] in H; try exact H.
    apply andb_true_iff in H as [_ H]. exact H.
Qed.

(** C7. The buffer of [build_manifest] lists, in this order: the string
    pool, the resource map, the namespace start, the starts of
    manifest (with its package attribute), application, activity (with
    its namespaced name attribute) and intent-filter, start and end of
    action, start and end of category, the ends of intent-filter,
    activity, application and manifest, and the namespace end.  Every
    end closes the innermost open start with the same indices, nothing
    stays open, and after each element start there is exactly one
    end-element chunk with its namespace and name indices. *)
Theorem manifest_order_and_nesting :
  exists doc chunks nodes,
    build_manifest = Ok doc
    /\ manifest_chunks = Ok chunks
    /\ document_chunks doc = Some chunks
    /\ parse_nodes chunks = Some nodes
    /\ name_nodes manifest_strings nodes = Some manifest_order
    /\ balanced [] nodes = true
    /\ forall i ns name attrs,
         nodes !! i = Some (ElementStart ns name attrs) ->
         count_ends ns name (drop (S i) nodes) = 1%nat.
Proof.
  do 3 eexists.
  split; [vm_compute; reflexivity|].
  split; [vm_compute; reflexivity|].
  split; [vm_compute; reflexivity|].
  split; [vm_compute; reflexivity|].
  split; [vm_compute; reflexivity|].
  split; [vm_compute; reflexivity|].
  apply starts_closed_once_spec. vm_compute. reflexivity.
Qed.

Lemma manifest_order_and_nesting_witness :
  exists nodes,
    nodes !! 7%nat
      = Some (ElementStart 1 7 [AttrRecord 1 9 12 8 0 DATA_TYPE_STRING 12])
    /\ count_ends 1 7 (drop 8 nodes) = 1%nat.
Proof.
  destruct manifest_order_and_nesting
    as (doc & chunks & nodes & _ & Hc & _ & Hn & _ & _ & Hends).
  exists nodes.
  assert (Hi : nodes !! 7%nat
    = Some (ElementStart 1 7 [AttrRecord 1 9 12 8 0 DATA_TYPE_STRING 12])).
  { vm_compute in Hc. injection Hc as <-. vm_compute in Hn.
    injection Hn as <-. reflexivity. }
  split; [exact Hi | exact (Hends _ _ _ _ Hi)].
Defined.

(** [build_manifest] returns: a buffer of 848 bytes that opens with
    the header of the outer chunk. *)
Lemma build_manifest_returns :
  exists doc,
    build_manifest = Ok doc
    /\ len doc = 848
    /\ chunk_header doc = Some (RES_XML_TYPE, 8, 848).
Proof. eexists. split; [|split]; vm_compute; reflexivity. Qed.

(** C2, evaluated on the code.  The resource map of the document has
    the single entry [ANDROID_NAME_RESOURCE_ID] at position 0; the
    pool string at index 0 is "manifest", while "name" is the string
    at index 9, beyond the resource map. *)
Theorem resource_map_position :
  exists chunks pool mapping res_map,
    manifest_chunks = Ok chunks
    /\ build_string_pool manifest_strings = Ok (pool, mapping)
    /\ chunks !! 0%nat = Some pool
    /\ chunks !! 1%nat = Some res_map
    /\ parse_resource_map res_map = Some [ANDROID_NAME_RESOURCE_ID]
    /\ manifest_strings !! 0%nat = Some (py "manifest")
    /\ mapping !! py "name" = Some 9
    /\ manifest_strings !! 9%nat = Some (py "name").
Proof.
  destruct (build_string_pool manifest_strings) as [[pool mapping]|e] eqn:E;
    [|vm_compute in E; discriminate].
  destruct (build_resource_map [ANDROID_NAME_RESOURCE_ID]) as [rm|e] eqn:Er;
    [|vm_compute in Er; discriminate].
  destruct manifest_chunks as [chunks|e] eqn:Ec;
    [|vm_compute in Ec; discriminate].
  exists chunks, pool, mapping, rm.
  split; [reflexivity|]. split; [reflexivity|].
  assert (Hhead : exists rest, chunks = pool :: rm :: rest).
  { unfold manifest_chunks in Ec. rewrite E in Ec. cbn [bind] in Ec.
    rewrite Er in Ec. cbn [bind] in Ec.
    repeat match type of Ec with
           | bind ?m _ = Ok _ =>
               let a := fresh "a" in
               let Ha := fresh "Ha" in
               apply bind_Ok in Ec as (a & Ha & Ec)
           end.
    injection Ec as <-. cbn [app]. eexists. reflexivity. }
  destruct Hhead as [rest ->].
  split; [reflexivity|]. split; [reflexivity|].
  split; [apply build_resource_map_read; exact Er|].
  split; [reflexivity|].
  split; [|reflexivity].
  apply build_string_pool_Ok in E as (_ & _ & _ & _ & _ & _ & _ & _ & ->).
  rewrite mapping_lookup. vm_compute. reflexivity.
Qed.

(** * Further properties of the encoder *)

(** ** Failures of [struct.pack] *)

Lemma pack_Raise (fs : list fmt) (vs : list Z) (e : exn) :
  pack fs vs = Raise e -> e = StructError.
Proof.
  revert vs. induction fs as [|f fs IH]; intros [|v vs] H; cbn [pack] in H;
    try congruence.
  unfold pack1 in H. destruct (_ && _); cbn [bind] in H; [|congruence].
  destruct (pack fs vs) as [r|e'] eqn:Er; cbn [bind] in H; [discriminate|].
  injection H as <-. eapply IH. exact Er.
Qed.

Lemma pack_outcome (fs : list fmt) (vs : list Z) :
  (exists b, pack fs vs = Ok b) \/ pack fs vs = Raise StructError.
Proof.
  destruct (pack fs vs) as [b|e] eqn:E; [left; eauto | right].
  rewrite (pack_Raise _ _ _ E). reflexivity.
Qed.

(** ** encode_length, once more *)

Lemma decode_length_encode (n : Z) (bs rest : bytes) :
  encode_length n = Ok bs -> decode_length (bs ++ rest) = Some (n, rest).
Proof.
  intros Hbs.
  destruct (encode_length_cases n) as [[Hr _]|[_ He]]; [|congruence].
  assert (Hm : 0 <= n mod 128 < 128) by (apply Z.mod_pos_bound; lia).
  destruct (Z_le_gt_dec n 0x7F) as [Hs|Hl].
  - rewrite encode_length_short in Hbs by lia. injection Hbs as <-.
    cbn [app decode_length]. rewrite Z_of_byte_of_Z, Z.mod_small by lia.
    rewrite land_flag_clear by lia. reflexivity.
  - rewrite encode_length_long in Hbs by lia. injection Hbs as <-.
    cbn [app decode_length]. rewrite !Z_of_byte_of_Z.
    rewrite land_7F, lor_flag, shiftr_7 by exact Hm.
    assert (Hq : 0 <= n / 128 < 128)
      by (split; [apply Z.div_pos; lia | apply Z.div_lt_upper_bound; lia]).
    rewrite (Z.mod_small (n mod 128 + 128)) by lia.
    rewrite (Z.mod_small (n / 128)) by lia.
    rewrite land_flag_set by exact Hm. cbn [Z.eqb].
    rewrite land_low_of_flagged by exact Hm.
    rewrite lor_shiftl_low by (change (2 ^ 7) with 128; lia).
    f_equal. f_equal. change (2 ^ 7) with 128.
    pose proof (Z.div_mod n 128). lia.
Qed.

(** X1. The length encoding is uniquely decodable: when the encodings
    of two lengths, each followed by any bytes, give the same byte
    string, the lengths are equal and so are the bytes that follow; in
    particular no encoding is a proper prefix of another. *)
Theorem encode_length_prefix_free (n m : Z) (bn bm rn rm : bytes) :
  encode_length n = Ok bn -> encode_length m = Ok bm ->
  bn ++ rn = bm ++ rm ->
  n = m /\ bn = bm /\ rn = rm.
Proof.
  intros Hn Hm Heq.
  pose proof (decode_length_encode n bn rn Hn) as Dn.
  pose proof (decode_length_encode m bm rm Hm) as Dm.
  rewrite Heq, Dm in Dn. injection Dn as -> ->.
  split; [reflexivity|]. split; [congruence | reflexivity].
Qed.

Lemma encode_length_prefix_free_witness :
  (0x80 : Z) = 0x80
  /\ [Byte.x80; Byte.x01] = [Byte.x80; Byte.x01]
  /\ [Byte.x2a] = [Byte.x2a].
Proof.
  apply (encode_length_prefix_free 0x80 0x80 [Byte.x80; Byte.x01]
           [Byte.x80; Byte.x01] [Byte.x2a] [Byte.x2a]); reflexivity.
Defined.

(** ** When the chunk builders return *)

Lemma res_ids_loop_Raise (ids : list Z) (chunk : bytes) (e : exn) :
  res_ids_loop ids chunk = Raise e -> e = StructError.
Proof.
  revert chunk. induction ids as [|o rest IH]; intros chunk H; [discriminate|].
  cbn [res_ids_loop] in H.
  destruct (pack [fmt_I] [o]) as [b|e'] eqn:Eb; cbn [bind] in H.
  - eapply IH. exact H.
  - injection H as <-. eapply pack_Raise. exact Eb.
Qed.

(** X2. [build_resource_map] returns exactly when every id is an
    unsigned 32-bit value and the size [8 + 4 * len] fits in 32 bits;
    the chunk then has that length and reads back as the ids, in
    order and with repeats.  Otherwise it raises struct.error, and
    nothing else. *)
Theorem build_resource_map_outcome (resource_ids : list Z) :
  match build_resource_map resource_ids with
  | Ok chunk =>
      Forall u32 resource_ids
      /\ 8 + 4 * len resource_ids < 2 ^ 32
      /\ len chunk = 8 + 4 * len resource_ids
      /\ chunk_header chunk
           = Some (RES_XML_RESOURCE_MAP_TYPE, 8, 8 + 4 * len resource_ids)
      /\ parse_resource_map chunk = Some resource_ids
  | Raise e =>
      e = StructError
      /\ (Exists (fun i => ~ u32 i) resource_ids
          \/ 2 ^ 32 <= 8 + 4 * len resource_ids)
  end.
Proof.
  destruct (build_resource_map resource_ids) as [chunk|e] eqn:E.
  - pose proof (build_resource_map_length _ _ E) as Hl.
    pose proof (build_resource_map_read _ _ E) as Hp.
    apply build_resource_map_Ok in E as (header & Hh & Hr & ->).
    split; [exact Hr|].
    pose proof (pack_Ok_fits _ _ _ Hh) as Hf.
    apply Forall2_cons_1 in Hf as [_ Hf]. apply Forall2_cons_1 in Hf as [_ Hf].
    apply Forall2_cons_1 in Hf as [Hs _]. cbn [fmt_size] in Hs.
    change (2 ^ (8 * Z.of_nat 4)) with (2 ^ 32) in Hs.
    split; [lia|]. split; [exact Hl|].
    split; [apply (chunk_header_pack _ _ _ _ _ Hh) | exact Hp].
  - unfold build_resource_map in E.
    destruct (pack [fmt_H; fmt_H; fmt_I] _) as [header|e'] eqn:Eh;
      cbn [bind] in E.
    + split; [eapply res_ids_loop_Raise; exact E|].
      left. apply not_Forall_Exists; [intros i; unfold u32; apply _|].
      intros Hall. rewrite (res_ids_loop_fits _ _ Hall) in E. discriminate.
    + injection E as <-. split; [eapply pack_Raise; exact Eh|].
      right. destruct (Z_lt_le_dec (8 + 4 * len resource_ids) (2 ^ 32))
        as [Hlt|Hge]; [|exact Hge].
      exfalso. pose proof (len_nonneg resource_ids).
      destruct (pack_fits [fmt_H; fmt_H; fmt_I]
        [RES_XML_RESOURCE_MAP_TYPE; 8; 8 + 4 * len resource_ids]) as [b Hb].
      * change (2 ^ 32) with 4294967296 in Hlt.
        unfold RES_XML_RESOURCE_MAP_TYPE. fits.
      * unfold build_resource_map in Eh. cbn zeta in Eh. congruence.
Qed.

(** X3. [namespace_chunk] returns exactly when the chunk type is an
    unsigned 16-bit value and both indices are unsigned 32-bit values;
    the chunk is then 24 bytes that read back as the type, header size
    24, total size 24, two zero words and the two indices.  Otherwise
    it raises struct.error. *)
Theorem namespace_chunk_outcome (chunk_type prefix_index uri_index : Z) :
  match namespace_chunk chunk_type prefix_index uri_index with
  | Ok chunk =>
      0 <= chunk_type < 2 ^ 16 /\ u32 prefix_index /\ u32 uri_index
      /\ len chunk = 24
      /\ parse_node_chunk chunk
           = Some (NodeChunk chunk_type 24 24 0 0 prefix_index uri_index)
  | Raise e =>
      e = StructError
      /\ ~ (0 <= chunk_type < 2 ^ 16 /\ u32 prefix_index /\ u32 uri_index)
  end.
Proof.
  rewrite namespace_chunk_eq.
  destruct (pack _ _) as [chunk|e] eqn:E.
  - destruct (node_chunk_read _ _ _ _ E) as (Hl & _ & Hp).
    apply pack_Ok_fits in E.
    repeat match goal with
           | H : Forall2 _ (_ :: _) (_ :: _) |- _ =>
               apply Forall2_cons_1 in H; destruct H
           end.
    cbn [fmt_size] in *. unfold u32.
    change (2 ^ (8 * Z.of_nat 4)) with (2 ^ 32) in *.
    change (2 ^ (8 * Z.of_nat 2)) with (2 ^ 16) in *. auto 10.
  - split; [eapply pack_Raise; exact E|].
    unfold u32. intros (Ht & Hp & Hu).
    destruct (pack_fits [fmt_H; fmt_H; fmt_I; fmt_I; fmt_I; fmt_I; fmt_I]
      [chunk_type; 0x18; 0x18; 0; 0; prefix_index; uri_index]) as [b Hb];
      [|congruence].
    change (2 ^ 16) with 65536 in Ht. change (2 ^ 32) with 4294967296 in Hp, Hu.
    fits.
Qed.

(** X4. The start and the end chunk of a namespace (or any two
    [namespace_chunk] calls with the same indices) differ in nothing
    but the two bytes of the chunk type. *)
Theorem namespace_chunks_mirror (ty1 ty2 prefix_index uri_index : Z)
    (c1 c2 : bytes) :
  namespace_chunk ty1 prefix_index uri_index = Ok c1 ->
  namespace_chunk ty2 prefix_index uri_index = Ok c2 ->
  drop 2 c1 = drop 2 c2
  /\ take 2 c1 = le_bytes 2 ty1 /\ take 2 c2 = le_bytes 2 ty2.
Proof.
  rewrite !namespace_chunk_eq. cbn [pack]. intros H1 H2.
  apply bind_Ok in H1 as (x1 & Hx1 & H1). apply bind_Ok in H2 as (x2 & Hx2 & H2).
  apply bind_Ok in H1 as (r1 & Hr1 & H1). apply bind_Ok in H2 as (r2 & Hr2 & H2).
  injection H1 as <-. injection H2 as <-.
  apply pack1_Ok in Hx1 as [_ ->]. apply pack1_Ok in Hx2 as [_ ->].
  assert (r1 = r2) by congruence. subst r2.
  cbn [fmt_size le_bytes app drop take]. auto.
Qed.

Lemma namespace_chunks_mirror_witness :
  exists c1 c2,
    namespace_chunk RES_XML_START_NAMESPACE_TYPE 2 1 = Ok c1
    /\ namespace_chunk RES_XML_END_NAMESPACE_TYPE 2 1 = Ok c2
    /\ drop 2 c1 = drop 2 c2.
Proof.
  destruct (namespace_chunk RES_XML_START_NAMESPACE_TYPE 2 1) as [c1|e] eqn:E1;
    [|vm_compute in E1; discriminate].
  destruct (namespace_chunk RES_XML_END_NAMESPACE_TYPE 2 1) as [c2|e] eqn:E2;
    [|vm_compute in E2; discriminate].
  exists c1, c2. split; [reflexivity|]. split; [reflexivity|].
  exact (proj1 (namespace_chunks_mirror _ _ _ _ _ _ E1 E2)).
Defined.

Lemma attributes_loop_Raise (attributes : list attribute) (chunk : bytes)
    (e : exn) :
  attributes_loop attributes chunk = Raise e -> e = StructError.
Proof.
  revert chunk. induction attributes as [|a rest IH]; intros chunk H;
    [discriminate|].
  rewrite attributes_loop_eq in H.
  destruct (pack _ _) as [b|e'] eqn:Eb; cbn [bind] in H.
  - eapply IH. exact H.
  - injection H as <-. eapply pack_Raise. exact Eb.
Qed.

(** X5. [start_element_chunk] returns exactly when the namespace
    reference (index or sentinel) and the name index are unsigned
    32-bit values, there are fewer than 65536 attributes (the count is
    a 16-bit field), and every attribute has 32-bit references and
    data value and an 8-bit data type.  Otherwise it raises
    struct.error. *)
Theorem start_element_chunk_outcome (ns_index : option Z) (name_index : Z)
    (attributes : list attribute) :
  match start_element_chunk ns_index name_index attributes with
  | Ok chunk =>
      u32 (index_or_sentinel ns_index) /\ u32 name_index
      /\ len attributes < 2 ^ 16 /\ Forall attr_fits attributes
      /\ len chunk = 36 + 20 * len attributes
  | Raise e =>
      e = StructError
      /\ ~ (u32 (index_or_sentinel ns_index) /\ u32 name_index
            /\ len attributes < 2 ^ 16 /\ Forall attr_fits attributes)
  end.
Proof.
  destruct (start_element_chunk ns_index name_index attributes)
    as [chunk|e] eqn:E.
  - destruct (start_element_chunk_Ok _ _ _ _ E) as (Hl & _ & Hfits & _).
    rewrite start_element_chunk_eq in E.
    apply bind_Ok in E as (header & Hh & _).
    apply pack_Ok_fits in Hh.
    repeat match goal with
           | H : Forall2 _ (_ :: _) (_ :: _) |- _ =>
               apply Forall2_cons_1 in H; destruct H
           end.
    cbn [fmt_size] in *. unfold u32.
    change (2 ^ (8 * Z.of_nat 4)) with (2 ^ 32) in *.
    change (2 ^ (8 * Z.of_nat 2)) with (2 ^ 16) in *. auto 10 with lia.
  - split.
    + rewrite start_element_chunk_eq in E.
      destruct (pack _ _) as [header|e'] eqn:Eh; cbn [bind] in E.
      * eapply attributes_loop_Raise. exact E.
      * injection E as <-. eapply pack_Raise. exact Eh.
    + intros (Hns & Hname & Hlen & Hfits).
      destruct (start_element_chunk_fits _ _ _ Hns Hname Hlen Hfits) as [c Hc].
      congruence.
Qed.

Lemma attributes_loop_records (a1 a2 : list attribute) (chunk : bytes) :
  map record_of a1 = map record_of a2 ->
  attributes_loop a1 chunk = attributes_loop a2 chunk.
Proof.
  revert a2 chunk. induction a1 as [|x a1 IH]; intros [|y a2] chunk H;
    try discriminate; [reflexivity|].
  cbn [map] in H. injection H as Hxy Hrest.
  rewrite !attributes_loop_eq, Hxy.
  destruct (pack _ _) as [b|e]; cbn [bind]; [|reflexivity].
  apply IH. exact Hrest.
Qed.

(** X6. Two calls of [start_element_chunk] give the same chunk exactly
    when they agree on the namespace reference as written (an absent
    namespace and the index 0xFFFFFFFF are the same four bytes), on the
    name index and on the attribute records: the chunk determines its
    arguments up to that identification. *)
Theorem start_element_chunk_same (ns1 ns2 : option Z) (name1 name2 : Z)
    (attrs1 attrs2 : list attribute) (c1 c2 : bytes) :
  start_element_chunk ns1 name1 attrs1 = Ok c1 ->
  start_element_chunk ns2 name2 attrs2 = Ok c2 ->
  (c1 = c2 <->
   index_or_sentinel ns1 = index_or_sentinel ns2
   /\ name1 = name2
   /\ map record_of attrs1 = map record_of attrs2).
Proof.
  intros H1 H2. split.
  - intros <-.
    destruct (start_element_chunk_Ok _ _ _ _ H1) as (_ & _ & _ & P1).
    destruct (start_element_chunk_Ok _ _ _ _ H2) as (_ & _ & _ & P2).
    rewrite P1 in P2. injection P2 as _ Hns Hname _ Hattrs. auto.
  - intros (Hns & -> & Hattrs).
    rewrite start_element_chunk_eq in H1, H2.
    assert (Hlen : len attrs1 = len attrs2).
    { unfold len. f_equal.
      rewrite <- (length_map record_of attrs1), Hattrs, length_map.
      reflexivity. }
    rewrite Hns, Hlen in H1.
    destruct (pack _ _) as [header|e]; cbn [bind] in H1, H2; [|discriminate].
    rewrite (attributes_loop_records _ _ _ Hattrs) in H1. congruence.
Qed.

Lemma start_element_chunk_same_witness :
  exists c,
    start_element_chunk None 0 [] = Ok c
    /\ start_element_chunk (Some 0xFFFFFFFF) 0 [] = Ok c.
Proof.
  destruct (start_element_chunk None 0 []) as [c1|e] eqn:E1;
    [|vm_compute in E1; discriminate].
  destruct (start_element_chunk (Some 0xFFFFFFFF) 0 []) as [c2|e] eqn:E2;
    [|vm_compute in E2; discriminate].
  exists c1. split; [reflexivity|].
  f_equal. symmetry.
  apply (proj2 (start_element_chunk_same _ _ _ _ _ _ _ _ E1 E2)).
  repeat split.
Defined.

(** X7. [end_element_chunk] returns exactly when the namespace
    reference (index or sentinel) and the name index are unsigned
    32-bit values, and raises struct.error otherwise; two end chunks
    are equal exactly when those two written values are. *)
Theorem end_element_chunk_outcome (ns_index : option Z) (name_index : Z) :
  match end_element_chunk ns_index name_index with
  | Ok chunk =>
      u32 (index_or_sentinel ns_index) /\ u32 name_index
      /\ len chunk = 24
      /\ forall ns' name' chunk',
           end_element_chunk ns' name' = Ok chunk' ->
           (chunk = chunk' <->
            index_or_sentinel ns_index = index_or_sentinel ns'
            /\ name_index = name')
  | Raise e =>
      e = StructError
      /\ ~ (u32 (index_or_sentinel ns_index) /\ u32 name_index)
  end.
Proof.
  destruct (end_element_chunk ns_index name_index) as [chunk|e] eqn:E.
  - pose proof E as E'. rewrite end_element_chunk_eq in E'.
    destruct (node_chunk_read _ _ _ _ E') as (Hl & _ & Hp).
    apply pack_Ok_fits in E'.
    repeat match goal with
           | H : Forall2 _ (_ :: _) (_ :: _) |- _ =>
               apply Forall2_cons_1 in H; destruct H
           end.
    cbn [fmt_size] in *. unfold u32.
    change (2 ^ (8 * Z.of_nat 4)) with (2 ^ 32) in *.
    split; [assumption|]. split; [assumption|]. split; [exact Hl|].
    intros ns' name' chunk' E2. split.
    + intros <-. rewrite end_element_chunk_eq in E2.
      destruct (node_chunk_read _ _ _ _ E2) as (_ & _ & Hp2).
      rewrite Hp in Hp2. injection Hp2 as -> ->. auto.
    + intros [Hns ->]. rewrite end_element_chunk_eq in E, E2.
      rewrite Hns in E. congruence.
  - split.
    + rewrite end_element_chunk_eq in E. eapply pack_Raise. exact E.
    + intros [Hns Hname].
      destruct (end_element_chunk_fits _ _ Hns Hname) as [c Hc]. congruence.
Qed.

Lemma end_element_chunk_outcome_witness :
  exists c, end_element_chunk (Some 1) 7 = Ok c /\ len c = 24.
Proof.
  pose proof (end_element_chunk_outcome (Some 1) 7) as H.
  destruct (end_element_chunk (Some 1) 7) as [c|e] eqn:E.
  - exists c. split; [reflexivity|]. destruct H as (_ & _ & Hl & Hsame).
    pose proof (proj2 (Hsame (Some 1) 7 c E) (conj eq_refl eq_refl)) as _.
    exact Hl.
  - exfalso. destruct H as [_ H]. apply H. unfold u32. simpl. lia.
Defined.

(** ** When [build_string_pool] returns, and what it raises *)

Lemma offsets_loop_Raise (offsets : list Z) (chunk : bytes) (e : exn) :
  offsets_loop offsets chunk = Raise e -> e = StructError.
Proof.
  revert chunk. induction offsets as [|o rest IH]; intros chunk H;
    [discriminate|].
  cbn [offsets_loop] in H.
  destruct (pack [fmt_I] [o]) as [b|e'] eqn:Eb; cbn [bind] in H.
  - eapply IH. exact H.
  - injection H as <-. eapply pack_Raise. exact Eb.
Qed.

Lemma pool_entries_Ok_range (strings : list str) (entries : list bytes) :
  pool_entries strings = Ok entries ->
  Forall (fun text => in_codec_range text = true) strings.
Proof.
  intros H. apply pool_entries_Forall2 in H.
  induction H as [|t e rest es Ht _ IH]; constructor; [|exact IH].
  apply pool_entry_in_range. eauto.
Qed.

Lemma pool_entries_app (a b : list str) :
  pool_entries (a ++ b) =
    let* x := pool_entries a in
    let* y := pool_entries b in
    Ok (x ++ y).
Proof.
  induction a as [|t a IH].
  - cbn [app pool_entries bind]. destruct (pool_entries b); reflexivity.
  - cbn [app pool_entries]. rewrite IH.
    destruct (pool_entry t); cbn [bind]; [|reflexivity].
    destruct (pool_entries a); cbn [bind]; [|reflexivity].
    destruct (pool_entries b); reflexivity.
Qed.

(** X8. [build_string_pool] returns exactly when every string is in
    the range of the length codec and the chunk size fits in 32 bits.
    When a string is out of range it raises a ValueError (the range
    error, or UnicodeEncodeError for a lone surrogate); when all
    strings are in range but the size does not fit, struct.error. *)
Theorem build_string_pool_outcome (strings : list str) :
  match build_string_pool strings with
  | Ok _ =>
      Forall (fun text => in_codec_range text = true) strings
      /\ pool_size strings < 2 ^ 32
  | Raise e =>
      (Exists (fun text => in_codec_range text = false) strings
       /\ is_ValueError e = true)
      \/ (Forall (fun text => in_codec_range text = true) strings
          /\ 2 ^ 32 <= pool_size strings
          /\ e = StructError)
  end.
Proof.
  destruct (build_string_pool strings) as [[chunk mapping]|e] eqn:E.
  - apply build_string_pool_Ok in E
      as (es & header & fields & Hes & Hh & _).
    split; [eapply pool_entries_Ok_range; exact Hes|].
    unfold pool_size. rewrite Hes.
    apply pack_Ok_fits in Hh.
    apply Forall2_cons_1 in Hh as [_ Hh]. apply Forall2_cons_1 in Hh as [_ Hh].
    apply Forall2_cons_1 in Hh as [Hs _]. cbn [fmt_size] in Hs.
    change (2 ^ (8 * Z.of_nat 4)) with (2 ^ 32) in Hs. lia.
  - destruct (pool_entries strings) as [es|e'] eqn:Hes.
    + right. split; [eapply pool_entries_Ok_range; exact Hes|].
      split.
      * destruct (Z_lt_le_dec (pool_size strings) (2 ^ 32)) as [Hlt|Hge];
          [|exact Hge].
        destruct (build_string_pool_total _ _ Hes Hlt) as (c & m & Hc).
        congruence.
      * rewrite build_string_pool_eq, Hes in E. cbn [bind] in E. cbn zeta in E.
        destruct (pack [fmt_H; fmt_H; fmt_I] _) as [header|e1] eqn:E1;
          cbn [bind] in E;
          [|injection E as <-; eapply pack_Raise; exact E1].
        destruct (pack [fmt_I; fmt_I; fmt_I; fmt_I; fmt_I] _) as [fields|e2]
          eqn:E2; cbn [bind] in E;
          [|injection E as <-; eapply pack_Raise; exact E2].
        destruct (offsets_loop _ _) as [table|e3] eqn:E3; cbn [bind] in E;
          [discriminate|].
        injection E as <-. eapply offsets_loop_Raise. exact E3.
    + left. rewrite build_string_pool_eq, Hes in E. cbn [bind] in E.
      injection E as <-. split; [|eapply pool_entries_Raise; exact Hes].
      apply Exists_exists.
      assert (Hn : ~ Forall (fun text => in_codec_range text = true) strings).
      { intros Hall. destruct (pool_entries_in_range _ Hall) as [es Hok].
        congruence. }
      apply not_Forall_Exists in Hn; [|intros t; apply _].
      apply Exists_exists in Hn as (t & Hin & Ht). exists t.
      split; [exact Hin|].
      cbn in Ht. destruct (in_codec_range t);
        [exfalso; apply Ht; reflexivity | reflexivity].
Qed.

(** X9. The loop stops at the first string it cannot encode: when the
    strings before it are in range, the exception of
    [build_string_pool] is the one that string raises, whatever
    follows it in the list. *)
Theorem build_string_pool_first_failure (good : list str) (bad : str)
    (rest : list str) (e : exn) :
  Forall (fun text => in_codec_range text = true) good ->
  pool_entry bad = Raise e ->
  build_string_pool (good ++ bad :: rest) = Raise e.
Proof.
  intros Hgood Hbad. destruct (pool_entries_in_range good Hgood) as [es Hes].
  rewrite build_string_pool_eq, pool_entries_app, Hes. cbn [bind pool_entries].
  rewrite Hbad. reflexivity.
Qed.

Lemma build_string_pool_first_failure_witness :
  build_string_pool
    [py "ok"; [0xD800%N]; repeat 97%N (Z.to_nat 0x4000)]
  = Raise UnicodeEncodeError.
Proof.
  apply (build_string_pool_first_failure [py "ok"] [0xD800%N]
           [repeat 97%N (Z.to_nat 0x4000)] UnicodeEncodeError).
  - apply Forall_cons_2; [vm_compute; reflexivity | apply Forall_nil_2].
  - reflexivity.
Defined.

(** ** The mapping as a dictionary *)

Lemma last_index_Some (l : list str) (i j : Z) (text : str) :
  last_index_from i text l = Some j ->
  i <= j < i + len l /\ l !! Z.to_nat (j - i) = Some text.
Proof.
  revert i. induction l as [|x l IH]; intros i H; [discriminate|].
  cbn [last_index_from] in H. rewrite len_cons.
  pose proof (len_nonneg l).
  destruct (last_index_from (i + 1) text l) as [j'|] eqn:E.
  - injection H as ->. apply IH in E as [Hr Hl]. split; [lia|].
    replace (Z.to_nat (j - i)) with (S (Z.to_nat (j - (i + 1)))) by lia.
    exact Hl.
  - destruct (bool_decide (x = text)) eqn:Ex; [|discriminate].
    injection H as <-. apply bool_decide_eq_true in Ex. subst x.
    split; [lia|]. rewrite Z.sub_diag. reflexivity.
Qed.

Lemma last_index_None (l : list str) (i : Z) (text : str) :
  last_index_from i text l = None <-> text ∉ l.
Proof.
  split; [|apply last_index_absent].
  revert i. induction l as [|x l IH]; intros i H; [apply not_elem_of_nil|].
  cbn [last_index_from] in H.
  destruct (last_index_from (i + 1) text l) as [j'|] eqn:E; [discriminate|].
  destruct (bool_decide (x = text)) eqn:Ex; [discriminate|].
  apply bool_decide_eq_false in Ex.
  apply not_elem_of_cons. split; [congruence | eapply IH; exact E].
Qed.

(** X10. The returned mapping is sound and complete for the input,
    repeats or not: an index it gives lies within the pool and the
    string at that position of the input is the key; a string has no
    entry exactly when it is not in the input, and then [indexes[key]]
    raises KeyError. *)
Theorem mapping_sound (strings : list str) (chunk : bytes)
    (mapping : gmap str Z) :
  build_string_pool strings = Ok (chunk, mapping) ->
  (forall text i,
     mapping !! text = Some i ->
     0 <= i < len strings /\ strings !! Z.to_nat i = Some text)
  /\ (forall text, mapping !! text = None <-> text ∉ strings)
  /\ (forall key, key ∉ strings -> getitem mapping key = Raise (KeyError key))
  /\ (forall key, key ∈ strings -> exists i, getitem mapping key = Ok i).
Proof.
  intros H. apply build_string_pool_Ok in H
    as (_ & _ & _ & _ & _ & _ & _ & _ & ->).
  assert (Hnone : forall text,
            dict_of (enumerate strings) !! text = None <-> text ∉ strings).
  { intros text. rewrite mapping_lookup. apply last_index_None. }
  split; [|split; [exact Hnone|split]].
  - intros text i Hi. rewrite mapping_lookup in Hi.
    apply last_index_Some in Hi as [Hr Hl]. rewrite Z.sub_0_r in Hl.
    split; [lia | exact Hl].
  - intros key Hkey. unfold getitem.
    rewrite (proj2 (Hnone key) Hkey). reflexivity.
  - intros key Hkey. unfold getitem.
    destruct (dict_of (enumerate strings) !! key) as [i|] eqn:E; [eauto|].
    apply Hnone in E. contradiction.
Qed.

Lemma mapping_sound_witness :
  exists chunk mapping,
    build_string_pool [py "a"; py "b"; py "a"] = Ok (chunk, mapping)
    /\ getitem mapping (py "c") = Raise (KeyError (py "c")).
Proof.
  destruct (build_string_pool [py "a"; py "b"; py "a"])
    as [[chunk mapping]|e] eqn:E; [|vm_compute in E; discriminate].
  exists chunk, mapping. split; [reflexivity|].
  destruct (mapping_sound _ _ _ E) as (_ & _ & Hmiss & _).
  apply Hmiss. intros Hin.
  repeat (apply elem_of_cons in Hin as [Hin|Hin]; [discriminate|]).
  apply elem_of_nil in Hin. exact Hin.
Defined.

(** ** Reading the pool back *)

Lemma pool_entry_read (text : str) (e pre rest : bytes) :
  pool_entry text = Ok e ->
  read_pool_string (pre ++ e ++ rest) (len pre) = Some (len text, utf8_of text).
Proof.
  unfold pool_entry. intros H.
  apply bind_Ok in H as (enc & Henc & H).
  apply bind_Ok in H as (l1 & Hl1 & H).
  apply bind_Ok in H as (l2 & Hl2 & H). injection H as <-.
  unfold read_pool_string, utf8_of. rewrite Henc.
  pose proof (len_nonneg pre).
  replace (len pre <? 0) with false by (symmetry; apply Z.ltb_ge; lia).
  rewrite drop_app_length' by (unfold len; lia).
  rewrite <- !app_assoc.
  rewrite (decode_length_encode _ _ _ Hl1), (decode_length_encode _ _ _ Hl2).
  cbn [app].
  rewrite list_lookup_middle by (unfold len; lia).
  change (Byte.eqb Byte.x00 Byte.x00) with true. cbn iota.
  rewrite take_app_length' by (unfold len; lia). reflexivity.
Qed.

Lemma read_pool_strings_entries (strings : list str) (entries : list bytes)
    (pre post : bytes) :
  Forall2 (fun text e => pool_entry text = Ok e) strings entries ->
  read_pool_strings (pre ++ concat entries ++ post)
                    (chunk_offsets (len pre) entries)
  = Some (map (fun text => (len text, utf8_of text)) strings).
Proof.
  intros H. revert pre. induction H as [|t e rest es Ht _ IH]; intros pre;
    [reflexivity|].
  cbn [chunk_offsets concat read_pool_strings map].
  rewrite <- (app_assoc e). rewrite (pool_entry_read _ _ _ _ Ht).
  rewrite <- len_app. rewrite (app_assoc pre e). rewrite IH. reflexivity.
Qed.

(** X11. Round trip of the pool: a reader that checks the chunk type
    and the UTF-8 flag, takes the string count, [stringsStart] and the
    offset table from the chunk, and at each offset decodes the two
    length prefixes and takes that many bytes before a 0x00, recovers
    for every input string, in order, its character count and its
    UTF-8 bytes. *)
Theorem pool_round_trip (strings : list str) (chunk : bytes)
    (mapping : gmap str Z) :
  build_string_pool strings = Ok (chunk, mapping) ->
  read_pool chunk = Some (map (fun text => (len text, utf8_of text)) strings).
Proof.
  intros H. apply build_string_pool_Ok in H
    as (es & header & fields & Hes & Hh & Hf & Hoffs & -> & _).
  unfold read_pool.
  rewrite (pool_chunk_header _ _ _ _ Hh), (pool_fields_read _ _ _ _ Hh Hf).
  change ((RES_STRING_POOL_TYPE =? RES_STRING_POOL_TYPE)
          && negb (Z.land 0x100 0x100 =? 0)) with true. cbn iota.
  rewrite (pool_offset_table_read _ _ _ _ Hes Hh Hf Hoffs).
  pose proof (pool_body_read _ _ _ _ Hes Hh Hf) as Hb.
  unfold pool_body, pool_strings_start in Hb.
  rewrite (pool_fields_read _ _ _ _ Hh Hf) in Hb. injection Hb as ->.
  destruct (pad_body_spec (concat es)) as (k & -> & _).
  apply (read_pool_strings_entries strings es [] (repeat Byte.x00 k)).
  apply pool_entries_Forall2. exact Hes.
Qed.

Lemma pool_round_trip_witness :
  exists chunk mapping,
    build_string_pool [py "ab"; [0xE9%N]] = Ok (chunk, mapping)
    /\ read_pool chunk
       = Some [(2, [Byte.x61; Byte.x62]); (1, [Byte.xc3; Byte.xa9])].
Proof.
  destruct (build_string_pool [py "ab"; [0xE9%N]])
    as [[chunk mapping]|e] eqn:E; [|vm_compute in E; discriminate].
  exists chunk, mapping. split; [reflexivity|].
  rewrite (pool_round_trip _ _ _ E). reflexivity.
Defined.

(** ** The offset table *)

Lemma pool_entry_min (text : str) (e : bytes) :
  pool_entry text = Ok e -> 3 <= len e.
Proof.
  unfold pool_entry. intros H.
  apply bind_Ok in H as (enc & Henc & H).
  apply bind_Ok in H as (l1 & Hl1 & H).
  apply bind_Ok in H as (l2 & Hl2 & H). injection H as <-.
  destruct (encode_length_cases (len text)) as [[_ (b1 & Hb1 & Hn1)]|[_ He]];
    [|congruence].
  destruct (encode_length_cases (len enc)) as [[_ (b2 & Hb2 & Hn2)]|[_ He]];
    [|congruence].
  assert (b1 = l1) by congruence. assert (b2 = l2) by congruence. subst.
  rewrite !len_app. change (len [Byte.x00]) with 1.
  pose proof (len_nonneg enc). lia.
Qed.

Lemma chunk_offsets_step (cs : list bytes) (start : Z) (i : nat) (a b : Z) :
  chunk_offsets start cs !! i = Some a ->
  chunk_offsets start cs !! S i = Some b ->
  exists c, cs !! i = Some c /\ b = a + len c.
Proof.
  revert start i. induction cs as [|c cs IH]; intros start i Ha Hb;
    [discriminate|].
  destruct i as [|i].
  - cbn in Ha. injection Ha as <-. destruct cs as [|c' cs]; [discriminate|].
    cbn in Hb. injection Hb as <-. exists c. auto.
  - cbn in Ha, Hb. destruct (IH _ _ Ha Hb) as (c0 & Hc0 & ->). exists c0. auto.
Qed.

(** X12. The offset table of a pool starts at 0, grows by at least
    three from one entry to the next (two length prefixes and a
    terminator), and every offset leaves at least three bytes of body
    after it: no two strings share an offset and none points outside
    the body. *)
Theorem pool_offsets_increasing (strings : list str) (chunk : bytes)
    (mapping : gmap str Z) :
  build_string_pool strings = Ok (chunk, mapping) ->
  exists offs body,
    pool_offset_table chunk = Some offs
    /\ pool_body chunk = Some body
    /\ length offs = length strings
    /\ (strings <> [] -> offs !! 0%nat = Some 0)
    /\ (forall i a b,
          offs !! i = Some a -> offs !! S i = Some b -> a + 3 <= b)
    /\ (forall i a, offs !! i = Some a -> 0 <= a /\ a + 3 <= len body).
Proof.
  intros H. apply build_string_pool_Ok in H
    as (es & header & fields & Hes & Hh & Hf & Hoffs & -> & _).
  pose proof (proj1 (pool_entries_Forall2 _ _) Hes) as HF.
  assert (Hmin : forall i e, es !! i = Some e -> 3 <= len e).
  { intros i e Hi.
    destruct (Forall2_lookup_r _ _ _ _ _ HF Hi) as (t & _ & Ht).
    eapply pool_entry_min. exact Ht. }
  exists (chunk_offsets 0 es), (pad_body (concat es)).
  split; [eapply pool_offset_table_read; eassumption|].
  split; [eapply pool_body_read; eassumption|].
  split; [rewrite length_chunk_offsets; eapply pool_entries_length; eassumption|].
  split; [|split].
  - intros Hne. destruct strings as [|t rest]; [contradiction|].
    destruct es as [|e es]; [apply Forall2_length in HF; discriminate|].
    reflexivity.
  - intros i a b Ha Hb.
    destruct (chunk_offsets_step _ _ _ _ _ Ha Hb) as (c & Hc & ->).
    pose proof (Hmin _ _ Hc). lia.
  - intros i a Ha.
    assert (Hi : (i < length es)%nat).
    { apply lookup_lt_Some in Ha. rewrite length_chunk_offsets in Ha. exact Ha. }
    destruct (lookup_lt_is_Some_2 es i Hi) as [e He].
    destruct (chunk_offsets_locate es 0 [] i a e Ha He) as [-> _].
    pose proof (Hmin _ _ He).
    destruct (pad_body_spec (concat es)) as (k & -> & _).
    assert (Hsplit : len (concat es)
              = len (concat (take i es)) + len e
                + len (concat (drop (S i) es))).
    { rewrite <- (take_drop_middle es i e He) at 1.
      rewrite concat_app. cbn [concat]. rewrite !len_app. lia. }
    rewrite len_app.
    pose proof (len_nonneg (concat (take i es))).
    pose proof (len_nonneg (concat (drop (S i) es))).
    pose proof (len_nonneg (repeat Byte.x00 k)). lia.
Qed.

Lemma pool_offsets_increasing_witness :
  exists chunk mapping offs,
    build_string_pool [py "name"; py "package"] = Ok (chunk, mapping)
    /\ pool_offset_table chunk = Some offs
    /\ offs !! 0%nat = Some 0.
Proof.
  destruct (build_string_pool [py "name"; py "package"])
    as [[chunk mapping]|e] eqn:E; [|vm_compute in E; discriminate].
  destruct (pool_offsets_increasing _ _ _ E)
    as (offs & body & Ht & _ & _ & H0 & _).
  exists chunk, mapping, offs. split; [reflexivity|]. split; [exact Ht|].
  apply H0. discriminate.
Defined.

(** ** Sequences of chunks *)

Lemma unpack_length (fs : list fmt) (c r : bytes) (vs : list Z) :
  unpack fs c = Some (vs, r) -> length c = (calcsize fs + length r)%nat.
Proof.
  revert c vs r. induction fs as [|f fs IH]; intros c vs r H.
  - injection H as <- <-. reflexivity.
  - cbn [unpack] in H.
    destruct (Nat.ltb_spec (length c) (fmt_size f)) as [Hlt|Hge];
      [discriminate|].
    destruct (unpack fs (drop (fmt_size f) c)) as [[vs' r']|] eqn:E;
      [|discriminate].
    injection H as <- <-. apply IH in E. rewrite length_drop in E.
    unfold calcsize in *.
    change (sum_list (map fmt_size (f :: fs)))
      with (fmt_size f + sum_list (map fmt_size fs))%nat. lia.
Qed.

Lemma unpack_app_stable (fs : list fmt) (c rest r : bytes) (vs : list Z) :
  unpack fs c = Some (vs, r) -> unpack fs (c ++ rest) = Some (vs, r ++ rest).
Proof.
  revert c vs r. induction fs as [|f fs IH]; intros c vs r H.
  - injection H as <- <-. reflexivity.
  - cbn [unpack] in H |- *.
    destruct (Nat.ltb_spec (length c) (fmt_size f)) as [Hlt|Hge];
      [discriminate|].
    destruct (Nat.ltb_spec (length (c ++ rest)) (fmt_size f)) as [Hlt|_].
    { rewrite length_app in Hlt. lia. }
    destruct (unpack fs (drop (fmt_size f) c)) as [[vs' r']|] eqn:E;
      [|discriminate].
    injection H as <- <-.
    rewrite drop_app_le, take_app_le by exact Hge.
    rewrite (IH _ _ _ E). reflexivity.
Qed.

Lemma chunk_header_app (c rest : bytes) (h : Z * Z * Z) :
  chunk_header c = Some h -> chunk_header (c ++ rest) = Some h.
Proof.
  unfold chunk_header. intros H.
  destruct (unpack [fmt_H; fmt_H; fmt_I] c) as [[vs r]|] eqn:E;
    [|discriminate].
  rewrite (unpack_app_stable _ _ rest _ _ E). exact H.
Qed.

Lemma chunk_header_length (c : bytes) (h : Z * Z * Z) :
  chunk_header c = Some h -> 8 <= len c.
Proof.
  unfold chunk_header. intros H.
  destruct (unpack [fmt_H; fmt_H; fmt_I] c) as [[vs r]|] eqn:E;
    [|discriminate].
  apply unpack_length in E. change (calcsize _) with 8%nat in E.
  unfold len. lia.
Qed.

Lemma walk_chunks_concat (cs : list bytes) (fuel : nat) :
  Forall (fun c => exists ty hs, chunk_header c = Some (ty, hs, len c)) cs ->
  (length cs <= fuel)%nat ->
  walk_chunks fuel (concat cs) = Some cs.
Proof.
  intros H. revert fuel. induction H as [|c cs (ty & hs & Hh) _ IH];
    intros fuel Hf.
  - destruct fuel; reflexivity.
  - destruct fuel as [|fuel]; [simpl in Hf; lia|].
    pose proof (chunk_header_length _ _ Hh) as H8.
    cbn [concat walk_chunks].
    destruct (c ++ concat cs) as [|b buf] eqn:Eb.
    { apply (f_equal length) in Eb. rewrite length_app in Eb.
      unfold len in H8. simpl in Eb. lia. }
    rewrite <- Eb. rewrite (chunk_header_app _ _ _ Hh).
    replace ((8 <=? len c) && (len c <=? len (c ++ concat cs))) with true.
    2:{ symmetry. apply andb_true_iff. rewrite !Z.leb_le, len_app.
        pose proof (len_nonneg (concat cs)). lia. }
    rewrite drop_app_length', take_app_length' by (unfold len; lia).
    rewrite IH by (simpl in Hf; lia). reflexivity.
Qed.

(** X13. Chunks frame themselves: for any sequence of chunks returned
    by the builders, walking their concatenation by the declared sizes
    gives back exactly that sequence, and so does reading the payload
    of a document that wraps them behind an 8-byte header. *)
Theorem produced_chunks_walk (cs : list bytes) :
  Forall produced cs ->
  walk_chunks (length (concat cs)) (concat cs) = Some cs
  /\ forall header : bytes,
       length header = 8%nat ->
       document_chunks (header ++ concat cs) = Some cs.
Proof.
  intros H.
  assert (HF : Forall (fun c => exists ty hs,
                         chunk_header c = Some (ty, hs, len c)) cs).
  { eapply Forall_impl; [exact H|]. cbn beta. intros c Hc.
    destruct (produced_header c Hc) as (ty & hs & ts & Hh & Hl & _).
    exists ty, hs. rewrite Hl. exact Hh. }
  assert (Hlen : (length cs <= length (concat cs))%nat).
  { clear H. induction HF as [|c cs (ty & hs & Hh) _ IH]; [simpl; lia|].
    pose proof (chunk_header_length _ _ Hh) as H8.
    cbn [concat length]. rewrite length_app. unfold len in H8. lia. }
  split.
  - apply walk_chunks_concat; assumption.
  - intros header Hh. unfold document_chunks.
    rewrite drop_app_length' by (symmetry; exact Hh).
    apply walk_chunks_concat; [exact HF|]. rewrite length_app. lia.
Qed.

Lemma produced_chunks_walk_witness :
  exists a b,
    build_resource_map [ANDROID_NAME_RESOURCE_ID] = Ok a
    /\ end_element_chunk None 0 = Ok b
    /\ walk_chunks (length (concat [a; b])) (concat [a; b]) = Some [a; b].
Proof.
  destruct (build_resource_map [ANDROID_NAME_RESOURCE_ID]) as [a|e] eqn:Ea;
    [|vm_compute in Ea; discriminate].
  destruct (end_element_chunk None 0) as [b|e] eqn:Eb;
    [|vm_compute in Eb; discriminate].
  exists a, b. split; [reflexivity|]. split; [reflexivity|].
  apply (produced_chunks_walk [a; b]).
  apply Forall_cons_2; [eapply produced_resource_map; exact Ea|].
  apply Forall_cons_2; [eapply produced_end_element; exact Eb|].
  apply Forall_nil_2.
Defined.

(** ** Extending the input *)

Lemma pad_body_mono (a b : bytes) :
  len a <= len b -> len (pad_body a) <= len (pad_body b).
Proof.
  intros Hle.
  pose proof (pad_body_aligned a) as Ha. pose proof (pad_body_aligned b) as Hb.
  destruct (pad_body_spec a) as (ka & Hka & Hka4 & _).
  destruct (pad_body_spec b) as (kb & Hkb & Hkb4 & _).
  assert (Hra : len (repeat Byte.x00 ka) = Z.of_nat ka)
    by (unfold len; rewrite repeat_length; reflexivity).
  assert (Hrb : len (repeat Byte.x00 kb) = Z.of_nat kb)
    by (unfold len; rewrite repeat_length; reflexivity).
  rewrite Hka, len_app, Hra in Ha |- *. rewrite Hkb, len_app, Hrb in Hb |- *.
  revert Ha Hb. generalize (len a) (len b) Hle. intros x y Hxy.
  Z.div_mod_to_equations. lia.
Qed.

Lemma chunk_offsets_app (start : Z) (a b : list bytes) :
  chunk_offsets start (a ++ b) =
    chunk_offsets start a ++ chunk_offsets (start + len (concat a)) b.
Proof.
  revert start. induction a as [|c a IH]; intros start.
  - cbn [app chunk_offsets concat]. change (len (@nil Byte.byte)) with 0.
    rewrite Z.add_0_r. reflexivity.
  - cbn [app chunk_offsets concat]. rewrite IH, len_app.
    replace (start + (len c + len (concat a)))
      with (start + len c + len (concat a)) by lia.
    reflexivity.
Qed.

Lemma last_index_app (a b : list str) (i : Z) (text : str) :
  last_index_from i text (a ++ b) =
    match last_index_from (i + len a) text b with
    | Some j => Some j
    | None => last_index_from i text a
    end.
Proof.
  revert i. induction a as [|x a IH]; intros i.
  - cbn [app last_index_from]. change (len (@nil str)) with 0.
    rewrite Z.add_0_r. destruct (last_index_from i text b); reflexivity.
  - cbn [app last_index_from]. rewrite IH, len_cons.
    replace (i + 1 + len a) with (i + (1 + len a)) by lia.
    destruct (last_index_from (i + (1 + len a)) text b); reflexivity.
Qed.

Lemma build_string_pool_size (strings : list str) (chunk : bytes)
    (mapping : gmap str Z) :
  build_string_pool strings = Ok (chunk, mapping) ->
  pool_size strings < 2 ^ 32 /\ len strings < 2 ^ 32.
Proof.
  intros H. apply build_string_pool_Ok in H
    as (es & header & fields & Hes & Hh & Hf & _).
  unfold pool_size. rewrite Hes.
  apply pack_Ok_fits in Hh.
  apply Forall2_cons_1 in Hh as [_ Hh]. apply Forall2_cons_1 in Hh as [_ Hh].
  apply Forall2_cons_1 in Hh as [Hs _].
  apply pack_Ok_fits in Hf. apply Forall2_cons_1 in Hf as [Hn _].
  cbn [fmt_size] in Hs, Hn.
  change (2 ^ (8 * Z.of_nat 4)) with (2 ^ 32) in Hs, Hn. lia.
Qed.

(** X14. Indices and offsets are stable under extension: if the pool
    of [strings ++ more] can be built, so can the pool of [strings];
    its offset table is the beginning of the longer table, and every
    string that does not occur again in [more] keeps the index it
    had. *)
Theorem pool_extension_stable (strings more : list str) (chunk' : bytes)
    (mapping' : gmap str Z) :
  build_string_pool (strings ++ more) = Ok (chunk', mapping') ->
  exists chunk mapping offs offs',
    build_string_pool strings = Ok (chunk, mapping)
    /\ pool_offset_table chunk = Some offs
    /\ pool_offset_table chunk' = Some offs'
    /\ offs = take (length strings) offs'
    /\ forall text, text ∉ more -> mapping' !! text = mapping !! text.
Proof.
  intros H'. pose proof H' as Hsave.
  apply build_string_pool_Ok in H'
    as (es' & header' & fields' & Hes' & Hh' & Hf' & Hoffs' & -> & ->).
  rewrite pool_entries_app in Hes'.
  apply bind_Ok in Hes' as (es & Hes & Hes').
  apply bind_Ok in Hes' as (em & Hem & Hes'). injection Hes' as <-.
  assert (Hsize : pool_size strings < 2 ^ 32).
  { destruct (build_string_pool_size _ _ _ Hsave) as [Ho _].
    unfold pool_size in *. rewrite Hes.
    rewrite pool_entries_app, Hes, Hem in Ho. cbn [bind] in Ho.
    pose proof (pad_body_mono (concat es) (concat (es ++ em))) as Hm.
    rewrite concat_app, !len_app in *.
    pose proof (len_nonneg more). pose proof (len_nonneg (concat em)). lia. }
  destruct (build_string_pool_total _ _ Hes Hsize) as (chunk & mapping & Hb).
  pose proof Hb as Hb'. apply build_string_pool_Ok in Hb'
    as (es0 & header & fields & Hes0 & Hh & Hf & Hoffs & -> & ->).
  assert (es0 = es) by congruence. subst es0.
  do 4 eexists. split; [exact Hb|].
  split; [eapply pool_offset_table_read; eassumption|].
  split.
  { eapply pool_offset_table_read; try eassumption.
    rewrite pool_entries_app, Hes, Hem. reflexivity. }
  split.
  - rewrite chunk_offsets_app.
    rewrite take_app_length'; [reflexivity|].
    rewrite length_chunk_offsets. symmetry.
    eapply pool_entries_length. exact Hes.
  - intros text Hn. rewrite !mapping_lookup, last_index_app.
    rewrite last_index_absent by exact Hn. reflexivity.
Qed.

Lemma pool_extension_stable_witness :
  exists chunk mapping,
    build_string_pool [py "a"; py "b"] = Ok (chunk, mapping)
    /\ pool_offset_table chunk = Some [0; 4]
    /\ mapping !! py "a" = Some 0.
Proof.
  destruct (build_string_pool ([py "a"; py "b"] ++ [py "c"]))
    as [[chunk' mapping']|e] eqn:E; [|vm_compute in E; discriminate].
  destruct (pool_extension_stable _ _ _ _ E)
    as (chunk & mapping & offs & offs' & Hb & Ht & Ht' & Htake & Hm).
  exists chunk, mapping. split; [exact Hb|].
  apply build_string_pool_Ok in E
    as (es' & header' & fields' & Hes' & Hh' & Hf' & Hoffs' & -> & ->).
  rewrite (pool_offset_table_read _ _ _ _ Hes' Hh' Hf' Hoffs') in Ht'.
  injection Ht' as <-. vm_compute in Hes'. injection Hes' as <-.
  split; [rewrite Ht, Htake; reflexivity|].
  rewrite <- Hm.
  - rewrite mapping_lookup. reflexivity.
  - intros Hin. apply elem_of_cons in Hin as [Hin|Hin]; [discriminate|].
    apply elem_of_nil in Hin. exact Hin.
Defined.

(** ** From a key to an element chunk and back *)

(** X15. References hold together: an index that the mapping gives
    for a key fits the 32-bit name field, so [start_element_chunk]
    with that index returns (given a namespace reference and
    attributes that fit); the name index read back from the chunk,
    looked up in the pool as read back from its chunk, is the
    character count and the UTF-8 bytes of the key. *)
Theorem pool_reference_resolves (strings : list str) (pool : bytes)
    (mapping : gmap str Z) (key : str) (i : Z) (ns_index : option Z)
    (attributes : list attribute) :
  build_string_pool strings = Ok (pool, mapping) ->
  mapping !! key = Some i ->
  u32 (index_or_sentinel ns_index) ->
  len attributes < 2 ^ 16 -> Forall attr_fits attributes ->
  exists c e l,
    start_element_chunk ns_index i attributes = Ok c
    /\ parse_start_element c = Some e
    /\ read_pool pool = Some l
    /\ l !! Z.to_nat (se_name e) = Some (len key, utf8_of key).
Proof.
  intros Hb Hi Hns Hlen Hfits.
  destruct (build_string_pool_size _ _ _ Hb) as [_ Hn].
  pose proof (pool_round_trip _ _ _ Hb) as Hread.
  pose proof Hb as Hb'. apply build_string_pool_Ok in Hb'
    as (_ & _ & _ & _ & _ & _ & _ & _ & ->).
  rewrite mapping_lookup in Hi. apply last_index_Some in Hi as [Hr Hl].
  rewrite Z.sub_0_r in Hl.
  assert (Hname : u32 i) by (unfold u32; lia).
  destruct (start_element_chunk_fits _ _ _ Hns Hname Hlen Hfits) as [c Hc].
  destruct (start_element_chunk_Ok _ _ _ _ Hc) as (_ & _ & _ & Hp).
  do 3 eexists. split; [exact Hc|]. split; [exact Hp|].
  split; [exact Hread|]. cbn [se_name].
  rewrite list_lookup_fmap, Hl. reflexivity.
Qed.

Lemma pool_reference_resolves_witness :
  exists (c : bytes) (e : start_element) (l : list (Z * bytes)),
    start_element_chunk None 1 [] = Ok c
    /\ parse_start_element c = Some e
    /\ l !! Z.to_nat (se_name e) = Some (7, utf8_of (py "package")).
Proof.
  destruct (build_string_pool [py "name"; py "package"])
    as [[pool mapping]|err] eqn:E; [|vm_compute in E; discriminate].
  assert (Hi : mapping !! py "package" = Some 1).
  { pose proof E as E'. apply build_string_pool_Ok in E'
      as (_ & _ & _ & _ & _ & _ & _ & _ & ->).
    rewrite mapping_lookup. reflexivity. }
  destruct (pool_reference_resolves _ _ _ (py "package") 1 None [] E Hi)
    as (c & e & l & Hc & Hp & _ & Hl).
  - unfold u32. simpl. lia.
  - unfold len. simpl. lia.
  - apply Forall_nil_2.
  - exists c, e, l. auto.
Defined.

(** ** Which exception an entry that is too long raises *)

Lemma utf8_char_Ok_scalar (c : N) (b : bytes) :
  utf8_char c = Ok b -> scalar_value c = true.
Proof.
  unfold utf8_char. intros H.
  assert (Hs : (c < 0xD800 \/ (0xDFFF < c /\ c <= 0x10FFFF))%N).
  { destruct (N.ltb_spec c 0x80); [lia|].
    destruct (N.ltb_spec c 0x800); [lia|].
    destruct (N.ltb_spec c 0x10000).
    - destruct (N.leb_spec 0xD800 c); destruct (N.leb_spec c 0xDFFF);
        cbn [andb] in H; try discriminate; lia.
    - destruct (N.leb_spec c 0x10FFFF); [lia | discriminate]. }
  unfold scalar_value. apply orb_true_iff.
  destruct Hs as [Hs|[Hs1 Hs2]].
  - left. apply N.ltb_lt. exact Hs.
  - right. apply andb_true_iff.
    split; [apply N.ltb_lt | apply N.leb_le]; assumption.
Qed.

(** A string with a lone surrogate has no encoding. *)
Lemma encode_utf8_ill_formed (text : str) :
  well_formed text = false -> encode_utf8 text = Raise UnicodeEncodeError.
Proof.
  intros Hw. destruct (encode_utf8 text) as [enc|e] eqn:E.
  - exfalso. revert enc E Hw. unfold well_formed.
    induction text as [|c text IH]; intros enc E Hw; [discriminate|].
    cbn [encode_utf8] in E. apply bind_Ok in E as (b & Hb & E).
    apply bind_Ok in E as (r & Hr & _).
    cbn [forallb] in Hw. rewrite (utf8_char_Ok_scalar _ _ Hb) in Hw.
    cbn [andb] in Hw. eapply IH; eassumption.
  - rewrite (encode_utf8_Raise _ _ E). reflexivity.
Qed.

Lemma overlong_out_of_range (text : str) :
  overlong text = true -> in_codec_range text = false.
Proof.
  unfold overlong, in_codec_range. intros H.
  destruct (encode_utf8 text) as [enc|e]; [|reflexivity].
  apply andb_false_iff. rewrite !Z.leb_gt.
  apply orb_true_iff in H as [H|H]; apply Z.ltb_lt in H; lia.
Qed.

(** What the first string outside the codec's range raises. *)
Lemma pool_entry_out_of_range (text : str) :
  in_codec_range text = false ->
  pool_entry text
    = Raise (if well_formed text then ValueError range_msg
             else UnicodeEncodeError).
Proof.
  intros Hr. destruct (well_formed text) eqn:Hw.
  - destruct (pool_entry_well_formed text Hw) as [[_ (e & He)]|[_ He]];
      [|exact He].
    assert (Hin : in_codec_range text = true)
      by (apply pool_entry_in_range; eauto).
    congruence.
  - unfold pool_entry. rewrite (encode_utf8_ill_formed _ Hw). reflexivity.
Qed.

Lemma first_out_of_range (strings : list str) :
  Exists (fun text => in_codec_range text = false) strings ->
  exists good bad rest,
    strings = good ++ bad :: rest
    /\ Forall (fun text => in_codec_range text = true) good
    /\ in_codec_range bad = false.
Proof.
  induction strings as [|t strings IH]; intros H.
  { apply Exists_nil in H. contradiction. }
  destruct (in_codec_range t) eqn:Ht.
  - apply Exists_cons in H as [H|H]; [congruence|].
    destruct (IH H) as (good & bad & rest & -> & Hgood & Hbad).
    exists (t :: good), bad, rest. split; [reflexivity|].
    split; [constructor; assumption | exact Hbad].
  - exists [], t, strings. split; [reflexivity|].
    split; [constructor | exact Ht].
Qed.

(** C5, as the code has it.  When some entry of the input is longer than
    0x3FFF (in characters or in UTF-8 bytes), [build_string_pool]
    raises and so returns no buffer, truncated or otherwise.  The
    exception is that of the first string outside the codec's range,
    the strings before it having been encoded: the range error of
    [encode_length] when that string has a UTF-8 encoding, and the
    UnicodeEncodeError of [text.encode], which runs before the length
    checks, when it holds a lone surrogate. *)
Theorem build_string_pool_overlong (strings : list str) :
  Exists (fun text => overlong text = true) strings ->
  exists good bad rest,
    strings = good ++ bad :: rest
    /\ Forall (fun text => in_codec_range text = true) good
    /\ in_codec_range bad = false
    /\ build_string_pool strings
       = Raise (if well_formed bad then ValueError range_msg
                else UnicodeEncodeError).
Proof.
  intros Hex.
  assert (Hout : Exists (fun text => in_codec_range text = false) strings).
  { eapply Exists_impl; [exact Hex|]. cbn beta. apply overlong_out_of_range. }
  destruct (first_out_of_range strings Hout)
    as (good & bad & rest & -> & Hgood & Hbad).
  exists good, bad, rest. split; [reflexivity|].
  split; [exact Hgood|]. split; [exact Hbad|].
  destruct (pool_entries_in_range good Hgood) as [es Hes].
  rewrite build_string_pool_eq, pool_entries_app, Hes.
  cbn [bind pool_entries]. rewrite (pool_entry_out_of_range bad Hbad).
  reflexivity.
Qed.

Lemma build_string_pool_overlong_witness :
  build_string_pool [repeat 97%N (Z.to_nat 0x4000); [0xD800%N]]
    = Raise (ValueError range_msg).
Proof.
  destruct (build_string_pool_overlong
              [repeat 97%N (Z.to_nat 0x4000); [0xD800%N]])
    as (good & bad & rest & Heq & Hgood & Hbad & Hraise).
  - apply Exists_cons_hd. vm_compute. reflexivity.
  - rewrite Hraise. destruct good as [|g good].
    + cbn [app] in Heq. injection Heq as <- _. reflexivity.
    + cbn [app] in Heq. injection Heq as <- _.
      apply Forall_cons_1 in Hgood as [Hg _].
      vm_compute in Hg. discriminate.
Defined.

(** The reading of C5 under which the exception is always the range
    error fails when a string with a lone surrogate comes before the
    entry that is too long: ["\ud800", "a" * 0x4000] raises
    UnicodeEncodeError. *)
Lemma overlong_after_surrogate :
  ~ overlong_gives_range_error [[0xD800%N]; repeat 97%N (Z.to_nat 0x4000)].
Proof.
  intros H.
  assert (Hex : Exists (fun text => overlong text = true)
                  [[0xD800%N]; repeat 97%N (Z.to_nat 0x4000)]).
  { apply Exists_cons_tl, Exists_cons_hd. vm_compute. reflexivity. }
  specialize (H Hex).
  assert (Hcode : build_string_pool [[0xD800%N]; repeat 97%N (Z.to_nat 0x4000)]
                  = Raise UnicodeEncodeError) by reflexivity.
  rewrite Hcode in H. discriminate.
Qed.
